(** * File organizer: classification and relocation engine

    A shallow embedding of the worker of [file.py] ([FileCategory],
    [FileInfo], [FileOrganizerWorker]) and the properties of its
    classification, collision-free naming, counting and event protocol.

    Modelling conventions.
    - Strings are byte strings; [lower] is [str.lower] on ASCII letters.
    - A [pathlib.Path] is the list of its components; [p </> s] is [p / s]
      for a one-component [s] (file names are always one component, folder
      names are taken to be).  Path comparison is lexical, as in pathlib.
    - The file system is a finite map from paths to nodes.  Failures of the
      operating system (permissions, full disk, cross-device moves) come from
      an oracle [OS]; the stop flag written by the other thread is an oracle
      indexed by the observation number.
    - Signals are recorded as the list of emitted events, in emission order.
      A log line is kept as a value of [log_msg]; [render_log] is its text. *)

From Stdlib Require Import Ascii String.
From stdpp Require Import gmap strings list pretty.

Local Open Scope string_scope.
Local Open Scope list_scope.
Local Open Scope nat_scope.

(** ** Strings: [str.lower], [str.rfind], slices *)

Definition ascii_lower (c : ascii) : ascii :=
  let n := nat_of_ascii c in
  if (65 <=? n)%nat && (n <=? 90)%nat then ascii_of_nat (n + 32) else c.

Fixpoint lower (s : string) : string :=
  match s with
  | EmptyString => EmptyString
  | String c s' => String (ascii_lower c) (lower s')
  end.

(** [rfind ch s]: the last index of [ch] in [s], [None] for Python's [-1]. *)
Fixpoint rfind (ch : ascii) (s : string) : option nat :=
  match s with
  | EmptyString => None
  | String c s' =>
      match rfind ch s' with
      | Some i => Some (S i)
      | None => if decide (c = ch) then Some 0%nat else None
      end
  end.

(** ** Paths (pathlib) *)

Abbreviation Path := (list string).

Definition joinpath (p : Path) (s : string) : Path := p ++ [s].
Infix "</>" := joinpath (at level 40, left associativity).

(** [Path.name]: the last component. *)
Definition path_name (p : Path) : string := default EmptyString (last p).

(** The test [0 < i < len(name) - 1] shared by [suffix] and [stem]. *)
Definition suffix_index (name : string) : option nat :=
  match rfind "." name with
  | Some i =>
      if (0 <? i)%nat && (i <? String.length name - 1)%nat then Some i else None
  | None => None
  end.

Definition name_suffix (name : string) : string :=
  match suffix_index name with
  | Some i => substring i (String.length name - i) name
  | None => EmptyString
  end.

Definition name_stem (name : string) : string :=
  match suffix_index name with
  | Some i => substring 0 i name
  | None => name
  end.

Definition path_suffix (p : Path) : string := name_suffix (path_name p).
Definition path_stem (p : Path) : string := name_stem (path_name p).

(** [Path.parents]: the proper ancestors, nearest first. *)
Definition parents (p : Path) : list Path :=
  (λ n, take n p) <$> reverse (seq 0 (length p)).

Definition in_parents (d p : Path) : bool := bool_decide (d ∈ parents p).

(** ** Core classes *)

Record FileCategory := mkCategory {
  name : string;
  extensions : list string;
  folder_name : string;
  file_count : nat;
  enabled : bool
}.

(** [FileCategory.__init__] *)
Definition new_FileCategory (nm : string) (exts : list string)
    (folder : string) : FileCategory :=
  {| name := nm; extensions := lower <$> exts; folder_name := folder;
     file_count := 0; enabled := true |}.

Definition matches_extension (c : FileCategory) (extension : string) : bool :=
  bool_decide (lower extension ∈ extensions c).

Definition increment_count (c : FileCategory) : FileCategory :=
  {| name := name c; extensions := extensions c;
     folder_name := folder_name c;
     file_count := file_count c + 1; enabled := enabled c |}.

Definition reset_count (c : FileCategory) : FileCategory :=
  {| name := name c; extensions := extensions c;
     folder_name := folder_name c;
     file_count := 0; enabled := enabled c |}.

(** [CategoryWidget.on_enabled_changed]: the check box of the registry. *)
Definition set_enabled (checked : bool) (c : FileCategory) : FileCategory :=
  {| name := name c; extensions := extensions c;
     folder_name := folder_name c;
     file_count := file_count c; enabled := checked |}.

(** ** The file system *)

Inductive node :=
  | Dir
  | File (st_size : N) (st_mtime : Z).

Global Instance node_eq_dec : EqDecision node.
Proof. solve_decision. Defined.

Abbreviation FS := (gmap Path node).

Definition path_exists (fs : FS) (p : Path) : bool :=
  bool_decide (is_Some (fs !! p)).

Definition is_file (fs : FS) (p : Path) : bool :=
  match fs !! p with Some (File _ _) => true | _ => false end.

Definition is_dir (fs : FS) (p : Path) : bool :=
  match p, fs !! p with
  | [], _ => true
  | _, Some Dir => true
  | _, _ => false
  end.

(** [name] and [size] are [fname] and [fsize] here. *)
Record FileInfo := mkFileInfo {
  path : Path;
  fname : string;
  extension : string;
  fsize : N;
  modified_time : option Z
}.

(** [FileInfo.__init__] *)
Definition new_FileInfo (fs : FS) (file_path : Path) : FileInfo :=
  {| path := file_path;
     fname := path_name file_path;
     extension := lower (path_suffix file_path);
     fsize := match fs !! file_path with
             | Some (File sz _) => sz
             | _ => 0%N
             end;
     modified_time := match fs !! file_path with
                      | Some (File _ mt) => Some mt
                      | _ => None
                      end |}.

(** ** Classifier: [get_category_for_extension]

    The registry is a list of mutable objects; a reference to one of them is
    its position in the list, returned together with the object found. *)

Fixpoint find_category (cats : list FileCategory) (extension : string)
    (i : nat) : option (nat * FileCategory) :=
  match cats with
  | [] => None
  | category :: rest =>
      if enabled category && matches_extension category extension
      then Some (i, category)
      else find_category rest extension (S i)
  end.

Definition get_category_for_extension (cats : list FileCategory)
    (extension : string) : option (nat * FileCategory) :=
  find_category cats extension 0.

(** ** Operating-system oracle and library calls *)

(** The text of a raised exception, [str(e)]. *)
Abbreviation exn := string.

(** What the operating system may refuse, independently of the tree:
    [stat_error p] makes [p.is_file()] / [p.stat()] raise,
    [mkdir_error p] makes [os.mkdir(p)] raise although nothing is at [p],
    [move_error src dst] makes [shutil.move(src, dst)] raise. *)
Record OS := mkOS {
  stat_error : Path → option exn;
  mkdir_error : Path → option exn;
  move_error : Path → Path → option exn
}.

(** One level of [Path.mkdir(exist_ok=True)]. *)
Definition mkdir1 (os : OS) (fs : FS) (p : Path) : FS * option exn :=
  match fs !! p with
  | Some Dir => (fs, None)
  | Some (File _ _) => (fs, Some "File exists")
  | None =>
      match mkdir_error os p with
      | Some e => (fs, Some e)
      | None => (<[p := Dir]> fs, None)
      end
  end.

Fixpoint mkdir_from (os : OS) (fs : FS) (pre : Path) (rest : list string)
    : FS * option exn :=
  match rest with
  | [] => (fs, None)
  | s :: rest' =>
      match mkdir1 os fs (pre </> s) with
      | (fs', None) => mkdir_from os fs' (pre </> s) rest'
      | r => r
      end
  end.

(** [p.mkdir(parents=True, exist_ok=True)]: the missing ancestors are
    created from the top; directories made before a failure stay. *)
Definition mkdir (os : OS) (fs : FS) (p : Path) : FS * option exn :=
  mkdir_from os fs [] p.

(** [shutil.move(src, dst)] for a file [src] and a [dst] that is not a
    directory: a rename, which would replace a file already at [dst].  The
    scan keeps only paths for which [is_file()] holds, so no directory is
    ever passed as [src]. *)
Definition shutil_move (os : OS) (fs : FS) (src dst : Path) : FS * option exn :=
  match fs !! src with
  | None => (fs, Some "No such file or directory")
  | Some n =>
      match move_error os src dst with
      | Some e => (fs, Some e)
      | None => (<[dst := n]> (delete src fs), None)
      end
  end.

(** [Path.rglob("*")]: every entry below [root] that is reached through
    directories; nothing when [root] is not a directory.  The order is the
    one of the listing of the map. *)
Definition walkable (fs : FS) (root p : Path) : bool :=
  forallb (λ q, implb (bool_decide (root `prefix_of` q)) (is_dir fs q))
          (parents p).

Definition rglob (fs : FS) (root : Path) : list Path :=
  List.filter (λ p, in_parents root p && walkable fs root p)
              (map_to_list fs).*1.

(** ** Collision-free naming: the [while destination.exists()] loop *)

(** [f"{base_name}_{counter}{extension}"] *)
Definition new_name (base_name : string) (counter : nat)
    (extension : string) : string :=
  base_name +:+ "_" +:+ pretty counter +:+ extension.

(** The loop on the pair [(destination, counter)]; [fuel] bounds the number
    of evaluations of the loop condition. *)
Fixpoint collision_loop (fs : FS) (folder : Path)
    (base_name extension : string) (fuel : nat)
    (destination : Path) (counter : nat) : option Path :=
  match fuel with
  | 0 => None
  | S fuel' =>
      if path_exists fs destination
      then collision_loop fs folder base_name extension fuel'
             (folder </> new_name base_name counter extension) (S counter)
      else Some destination
  end.

(** Lines 158-166 and 186-194: from [destination = folder / name] and
    [counter = 1].  A tree of [size fs] entries cannot occupy
    [size fs + 1] distinct candidates, so [size fs + 2] tests suffice
    ([free_destination_total]). *)
Definition free_destination (fs : FS) (folder : Path) (file_info : FileInfo)
    : option Path :=
  collision_loop fs folder
    (path_stem (path file_info)) (path_suffix (path file_info))
    (size fs + 2) (folder </> fname file_info) 1.

(** ** Signals *)

Inductive log_msg :=
  | LogStarting (dry : bool)
  | LogSource (p : Path)
  | LogDestination (p : Path)
  | LogNoFiles
  | LogFound (n : nat)
  | LogDryMove (file folder : string)
  | LogMoved (file folder : string)
  | LogMoveError (file : string) (e : exn)
  | LogMovedUncategorized (file : string)
  | LogUncategorizedError (file : string) (e : exn)
  | LogComplete (organized_count : nat).

Definition render_path (p : Path) : string :=
  foldr (λ s acc, "/" +:+ s +:+ acc) EmptyString p.

Definition render_log (m : log_msg) : string :=
  match m with
  | LogStarting dry =>
      "Starting " +:+ (if dry then "dry run" else "organization")
  | LogSource p => "Source: " +:+ render_path p
  | LogDestination p => "Destination: " +:+ render_path p
  | LogNoFiles => "No files found to organize"
  | LogFound n => "Found " +:+ pretty n +:+ " files"
  | LogDryMove file folder => "[DRY] Would move " +:+ file +:+ " → " +:+ folder
  | LogMoved file folder => "Moved " +:+ file +:+ " → " +:+ folder
  | LogMoveError file e => "Error moving " +:+ file +:+ ": " +:+ e
  | LogMovedUncategorized file => "Moved " +:+ file +:+ " → Uncategorized"
  | LogUncategorizedError file e =>
      "Error moving uncategorized file " +:+ file +:+ ": " +:+ e
  | LogComplete n =>
      "Organization complete. Processed " +:+ pretty n +:+ " files."
  end.

(** The argument of [progress_updated]: [int((i / len(files)) * 100)] is
    computed in floating point and kept as its two operands. *)
Inductive progress :=
  | Ratio (i total : nat)
  | Percent (v : nat).

Record Summary := mkSummary {
  total_files : nat;
  organized : nat;
  uncategorized : nat;
  categories : list (string * nat)
}.

Inductive event :=
  | progress_updated (v : progress)
  | status_updated (m : string)
  | log_updated (m : log_msg)
  | finished (s : Summary)
  | error_occurred (m : string).

(** A dict with string keys as the list of its items in insertion order;
    [dict_set d k v] is [d[k] = v]. *)
Fixpoint dict_set (d : list (string * nat)) (k : string) (v : nat)
    : list (string * nat) :=
  match d with
  | [] => [(k, v)]
  | (k', v') :: d' =>
      if decide (k' = k) then (k, v) :: d' else (k', v') :: dict_set d' k v
  end.

Fixpoint dict_get (d : list (string * nat)) (k : string) : option nat :=
  match d with
  | [] => None
  | (k', v') :: d' => if decide (k' = k) then Some v' else dict_get d' k
  end.

(** [{cat.name: cat.file_count for cat in self.categories if cat.file_count > 0}] *)
Definition summary_categories (cats : list FileCategory)
    : list (string * nat) :=
  foldl (λ d cat, if (0 <? file_count cat)%nat
                  then dict_set d (name cat) (file_count cat) else d)
        [] cats.

(** ** The worker thread *)

Record Worker := mkWorker {
  source_dir : Path;
  dest_dir : Path;
  dry_run : bool
}.

(** [FileOrganizerWorker.__init__]; the category list is shared with the
    window and lives in the state below. *)
Definition new_Worker (source : Path) (dest : option Path) (dry : bool)
    : Worker :=
  {| source_dir := source;
     dest_dir := default (source </> "Organized") dest;
     dry_run := dry |}.

(** What a run reads and writes: the tree and the category objects. *)
Record state := mkState {
  st_fs : FS;
  st_cats : list FileCategory
}.

Inductive scan_result :=
  | ScanStopped
  | ScanFailed (e : exn)
  | Scanned (files : list FileInfo).

Inductive loop_result :=
  | Stopped
  | Completed (organized_count : nat) (uncategorized_files : list FileInfo).

Section worker.
Variable os : OS.
(** [should_stop k]: the value of the flag at the [k]-th time the run
    reads it. *)
Variable should_stop : nat → bool.
Variable w : Worker.

(** Lines 81-85, the body of the [try]. *)
Fixpoint scan_loop (fs : FS) (entries : list Path) (k : nat)
    (files : list FileInfo) : scan_result :=
  match entries with
  | [] => Scanned files
  | file_path :: rest =>
      if should_stop k then ScanStopped
      else match stat_error os file_path with
           | Some e => ScanFailed e
           | None =>
               if is_file fs file_path
               then scan_loop fs rest (S k) (files ++ [new_FileInfo fs file_path])
               else scan_loop fs rest (S k) files
           end
  end.

(** [move_file]; [j] is the position of [category] in the registry. *)
Definition move_file (file_info : FileInfo) (j : nat)
    (category : FileCategory) (st : state) : state * list event * bool :=
  let category_path := dest_dir w </> folder_name category in
  match mkdir os (st_fs st) category_path with
  | (fs1, Some e) =>
      (mkState fs1 (st_cats st),
       [log_updated (LogMoveError (fname file_info) e)], false)
  | (fs1, None) =>
      match free_destination fs1 category_path file_info with
      | None =>
          (* the loop has not ended within its fuel: this does not
             happen, see [free_destination_total] *)
          (mkState fs1 (st_cats st), [], false)
      | Some destination =>
          match shutil_move os fs1 (path file_info) destination with
          | (fs2, Some e) =>
              (mkState fs2 (st_cats st),
               [log_updated (LogMoveError (fname file_info) e)], false)
          | (fs2, None) =>
              (mkState fs2 (alter increment_count j (st_cats st)),
               [log_updated (LogMoved (fname file_info) (folder_name category))],
               true)
          end
      end
  end.

(** Lines 185-199: the [try] statement in the loop of
    [handle_uncategorized_files]. *)
Definition move_uncategorized_file (uncategorized_path : Path)
    (file_info : FileInfo) (fs : FS) : FS * list event :=
  match free_destination fs uncategorized_path file_info with
  | None => (fs, []) (* does not happen, see [free_destination_total] *)
  | Some destination =>
      match shutil_move os fs (path file_info) destination with
      | (fs', Some e) =>
          (fs', [log_updated (LogUncategorizedError (fname file_info) e)])
      | (fs', None) =>
          (fs', [log_updated (LogMovedUncategorized (fname file_info))])
      end
  end.

(** Line 184: [for file_info in uncategorized_files]. *)
Fixpoint move_uncategorized (uncategorized_path : Path)
    (files : list FileInfo) (fs : FS) : FS * list event :=
  match files with
  | [] => (fs, [])
  | file_info :: rest =>
      let '(fs1, evs1) :=
        move_uncategorized_file uncategorized_path file_info fs in
      let '(fs2, evs2) := move_uncategorized uncategorized_path rest fs1 in
      (fs2, evs1 ++ evs2)
  end.

(** [handle_uncategorized_files]; the third component is the exception
    that leaves the method, raised by [mkdir] outside the [try]. *)
Definition handle_uncategorized_files (uncategorized_files : list FileInfo)
    (st : state) : state * list event * option exn :=
  match uncategorized_files with
  | [] => (st, [], None)
  | _ :: _ =>
      let uncategorized_path := dest_dir w </> "Uncategorized" in
      match mkdir os (st_fs st) uncategorized_path with
      | (fs1, Some e) => (mkState fs1 (st_cats st), [], Some e)
      | (fs1, None) =>
          let '(fs2, evs) :=
            move_uncategorized uncategorized_path uncategorized_files fs1 in
          (mkState fs2 (st_cats st), evs, None)
      end
  end.

(** Lines 115-129: the body of the processing loop after the progress
    and status signals. *)
Definition process_file (file_info : FileInfo) (st : state)
    (organized_count : nat) (uncategorized_files : list FileInfo)
    : state * list event * nat * list FileInfo :=
  if in_parents (dest_dir w) (path file_info)
  then (st, [], organized_count, uncategorized_files)
  else
    match get_category_for_extension (st_cats st) (extension file_info) with
    | Some (j, category) =>
        if enabled category then
          if dry_run w then
            (mkState (st_fs st) (alter increment_count j (st_cats st)),
             [log_updated (LogDryMove (fname file_info) (folder_name category))],
             organized_count + 1, uncategorized_files)
          else
            let '(st', evs, ok) := move_file file_info j category st in
            (st', evs,
             if ok then organized_count + 1 else organized_count,
             uncategorized_files)
        else (st, [], organized_count, uncategorized_files ++ [file_info])
    | None => (st, [], organized_count, uncategorized_files ++ [file_info])
    end.

(** Lines 107-129: [for i, file_info in enumerate(files)].  [base] is the
    number of times the scan has read the stop flag, [total] is
    [len(files)]. *)
Fixpoint process_loop (base total : nat) (files : list FileInfo) (i : nat)
    (st : state) (organized_count : nat)
    (uncategorized_files : list FileInfo)
    : state * list event * loop_result :=
  match files with
  | [] => (st, [], Completed organized_count uncategorized_files)
  | file_info :: rest =>
      if should_stop (base + i) then (st, [], Stopped)
      else
        let '(st1, evs1, organized1, uncategorized1) :=
          process_file file_info st organized_count uncategorized_files in
        let '(st2, evs2, r) :=
          process_loop base total rest (S i) st1 organized1 uncategorized1 in
        (st2,
         [progress_updated (Ratio i total);
          status_updated ("Processing: " +:+ fname file_info)]
           ++ evs1 ++ evs2,
         r)
  end.

(** Lines 100-102. *)
Definition reset_counts (cats : list FileCategory) : list FileCategory :=
  (λ category, if enabled category then reset_count category else category)
    <$> cats.

Definition make_summary (files : list FileInfo) (organized_count : nat)
    (uncategorized_files : list FileInfo) (cats : list FileCategory)
    : Summary :=
  {| total_files := length files;
     organized := organized_count;
     uncategorized := length uncategorized_files;
     categories := summary_categories cats |}.

Definition start_events : list event :=
  [log_updated (LogStarting (dry_run w));
   log_updated (LogSource (source_dir w));
   log_updated (LogDestination (dest_dir w));
   status_updated "Scanning files..."].

(** Lines 97-102: the destination root and the counters, before the
    processing loop. *)
Definition begin_processing (st : state) : state * option exn :=
  match (if dry_run w then (st_fs st, None)
         else mkdir os (st_fs st) (dest_dir w)) with
  | (fs1, Some e) => (mkState fs1 (st_cats st), Some e)
  | (fs1, None) => (mkState fs1 (reset_counts (st_cats st)), None)
  end.

(** Lines 131-132. *)
Definition finish_uncategorized (uncategorized_files : list FileInfo)
    (st : state) : state * list event * option exn :=
  if dry_run w then (st, [], None)
  else handle_uncategorized_files uncategorized_files st.

(** Lines 134-145. *)
Definition completion_events (files : list FileInfo)
    (organized_count : nat) (uncategorized_files : list FileInfo)
    (st : state) : list event :=
  [progress_updated (Percent 100);
   status_updated "Complete!";
   log_updated (LogComplete organized_count);
   finished (make_summary files organized_count uncategorized_files
               (st_cats st))].

(** [organize_files]; the third component is the exception that leaves
    the method. *)
Definition organize_files (st : state) : state * list event * option exn :=
  let entries := rglob (st_fs st) (source_dir w) in
  match scan_loop (st_fs st) entries 0 [] with
  | ScanStopped => (st, start_events, None)
  | ScanFailed e =>
      (st, start_events ++ [error_occurred ("Error scanning files: " +:+ e)],
       None)
  | Scanned [] =>
      (st,
       start_events ++
         [log_updated LogNoFiles; finished (mkSummary 0 0 0 [])],
       None)
  | Scanned files =>
      let found := [log_updated (LogFound (length files))] in
      match begin_processing st with
      | (st1, Some e) => (st1, start_events ++ found, Some e)
      | (st1, None) =>
          match process_loop (length entries) (length files) files 0 st1 0 [] with
          | (st2, evs2, Stopped) =>
              (st2, start_events ++ found ++ evs2, None)
          | (st2, evs2, Completed organized_count uncategorized_files) =>
              match finish_uncategorized uncategorized_files st2 with
              | (st3, evs3, Some e) =>
                  (st3, start_events ++ found ++ evs2 ++ evs3, Some e)
              | (st3, evs3, None) =>
                  (st3,
                   start_events ++ found ++ evs2 ++ evs3 ++
                     completion_events files organized_count
                       uncategorized_files st3,
                   None)
              end
          end
      end
  end.

(** [run]: any exception that leaves [organize_files] is reported. *)
Definition run (st : state) : state * list event :=
  match organize_files st with
  | (st', evs, Some e) => (st', evs ++ [error_occurred e])
  | (st', evs, None) => (st', evs)
  end.

End worker.

(** ** Vocabulary of the statements *)

(** A category claims an extension when it is enabled and lists the
    lower-cased extension. *)
Definition claims (extension : string) (c : FileCategory) : Prop :=
  enabled c = true ∧ lower extension ∈ extensions c.

(** A category without its counter: what the classifier reads, and the
    names. *)
Definition rules (c : FileCategory) : string * list string * string * bool :=
  (name c, extensions c, folder_name c, enabled c).

(** The counter of the category at position [j], [0] when there is none. *)
Definition count_at (cats : list FileCategory) (j : nat) : nat :=
  from_option file_count 0 (cats !! j).

(** The same worker in dry-run mode. *)
Definition as_dry_run (w : Worker) : Worker :=
  {| source_dir := source_dir w; dest_dir := dest_dir w; dry_run := true |}.

(** What a completed scan yields: one record per regular file met. *)
Definition scanned_files (fs : FS) (source : Path) : list FileInfo :=
  new_FileInfo fs <$> List.filter (is_file fs) (rglob fs source).

(** The file lies within the destination root and is passed over. *)
Definition skipped (w : Worker) (f : FileInfo) : bool :=
  in_parents (dest_dir w) (path f).

(** The file is not passed over and the classifier sends it to the
    category at position [j]. *)
Definition routed (w : Worker) (cats : list FileCategory) (j : nat)
    (f : FileInfo) : bool :=
  negb (skipped w f) &&
  bool_decide (fst <$> get_category_for_extension cats (extension f) = Some j).

(** The file is not passed over and no enabled category lists its
    extension. *)
Definition unmatched (w : Worker) (cats : list FileCategory)
    (f : FileInfo) : bool :=
  negb (skipped w f) &&
  bool_decide (get_category_for_extension cats (extension f) = None).

Definition is_move_error (ev : event) : bool :=
  match ev with log_updated (LogMoveError _ _) => true | _ => false end.

Definition is_summary (ev : event) : bool :=
  match ev with finished _ => true | _ => false end.

Definition is_error (ev : event) : bool :=
  match ev with error_occurred _ => true | _ => false end.

(** The count a summary reports for a category name, [0] when absent. *)
Definition summary_count (s : Summary) (nm : string) : nat :=
  default 0 (dict_get (categories s) nm).

(** The [n]-th renamed candidate of the collision loop. *)
Definition candidate (folder : Path) (base_name extension : string)
    (n : nat) : Path :=
  folder </> new_name base_name n extension.

(** [destination] is the collision-free name for [file_info] in [folder]:
    nothing exists there, and it is the file's own name when that is free,
    otherwise [{stem}_{n}{suffix}] for the least [n >= 1] that is free. *)
Definition collision_free_name (fs : FS) (folder : Path)
    (file_info : FileInfo) (destination : Path) : Prop :=
  let candidate :=
    candidate folder (path_stem (path file_info))
              (path_suffix (path file_info)) in
  fs !! destination = None ∧
  ((fs !! (folder </> fname file_info) = None ∧
    destination = folder </> fname file_info) ∨
   (is_Some (fs !! (folder </> fname file_info)) ∧
    ∃ n, 1 ≤ n ∧ destination = candidate n ∧
         ∀ k, 1 ≤ k < n → is_Some (fs !! candidate k))).

(** [fs'] is [fs] with the node of [src] now at [destination], where
    nothing was. *)
Definition relocated (fs : FS) (src destination : Path) (fs' : FS) : Prop :=
  fs !! destination = None ∧
  ∃ n, fs !! src = Some n ∧ fs' = <[destination := n]> (delete src fs).

(** Every entry of [fs'] that [fs] did not have lies within [dest], or is
    a directory on the way to it. *)
Definition grows_within (dest : Path) (fs fs' : FS) : Prop :=
  ∀ p n, fs' !! p = Some n →
         fs !! p = Some n ∨ in_parents dest p = true ∨
         (n = Dir ∧ p `prefix_of` dest).

(** Every entry of [fs] within [dest] is still there in [fs']. *)
Definition keeps_within (dest : Path) (fs fs' : FS) : Prop :=
  ∀ p n, in_parents dest p = true → fs !! p = Some n → fs' !! p = Some n.

(** How a run may change the tree, for the destination root [dest]. *)
Definition tree_changes (dest : Path) (fs fs' : FS) : Prop :=
  grows_within dest fs fs' ∧ keeps_within dest fs fs'.

(** What the body of the processing loop did with a file. *)
Section outcome.
Variables (os : OS) (w : Worker).

Inductive file_outcome (f : FileInfo) (st : state) (organized_count : nat)
    (uncategorized_files : list FileInfo)
    : state → list event → nat → list FileInfo → Prop :=
  | PassedOver :
      skipped w f = true →
      file_outcome f st organized_count uncategorized_files
        st [] organized_count uncategorized_files
  | LeftUnmatched :
      unmatched w (st_cats st) f = true →
      file_outcome f st organized_count uncategorized_files
        st [] organized_count (uncategorized_files ++ [f])
  | Simulated j c :
      dry_run w = true →
      routed w (st_cats st) j f = true →
      st_cats st !! j = Some c →
      file_outcome f st organized_count uncategorized_files
        (mkState (st_fs st) (alter increment_count j (st_cats st)))
        [log_updated (LogDryMove (fname f) (folder_name c))]
        (organized_count + 1) uncategorized_files
  | Moved j c st' evs :
      dry_run w = false →
      routed w (st_cats st) j f = true →
      st_cats st !! j = Some c →
      move_file os w f j c st = (st', evs, true) →
      file_outcome f st organized_count uncategorized_files
        st' evs (organized_count + 1) uncategorized_files
  | MoveFailed j c st' evs :
      dry_run w = false →
      routed w (st_cats st) j f = true →
      st_cats st !! j = Some c →
      move_file os w f j c st = (st', evs, false) →
      file_outcome f st organized_count uncategorized_files
        st' evs organized_count uncategorized_files.

End outcome.

(** The ways in which [organize_files] ends. *)
Section run_cases.
Variables (os : OS) (should_stop : nat → bool) (w : Worker).

Let scan st :=
  scan_loop os should_stop (st_fs st) (rglob (st_fs st) (source_dir w)) 0 [].
Let loop st files st1 :=
  process_loop os should_stop w
    (length (rglob (st_fs st) (source_dir w))) (length files) files 0 st1 0 [].
Let found (files : list FileInfo) := [log_updated (LogFound (length files))].

Inductive organize_files_case (st : state)
    : state → list event → option exn → Prop :=
  | ScanInterrupted :
      scan st = ScanStopped →
      organize_files_case st st (start_events w) None
  | ScanError e :
      scan st = ScanFailed e →
      organize_files_case st st
        (start_events w ++ [error_occurred ("Error scanning files: " +:+ e)])
        None
  | NothingFound :
      scan st = Scanned [] →
      organize_files_case st st
        (start_events w ++
           [log_updated LogNoFiles; finished (mkSummary 0 0 0 [])])
        None
  | RootFailed files st1 e :
      scan st = Scanned files → files ≠ [] →
      begin_processing os w st = (st1, Some e) →
      organize_files_case st st1 (start_events w ++ found files) (Some e)
  | ProcessingInterrupted files st1 st2 evs2 :
      scan st = Scanned files → files ≠ [] →
      begin_processing os w st = (st1, None) →
      loop st files st1 = (st2, evs2, Stopped) →
      organize_files_case st st2 (start_events w ++ found files ++ evs2) None
  | UncategorizedFailed files st1 st2 evs2 org unc st3 evs3 e :
      scan st = Scanned files → files ≠ [] →
      begin_processing os w st = (st1, None) →
      loop st files st1 = (st2, evs2, Completed org unc) →
      finish_uncategorized os w unc st2 = (st3, evs3, Some e) →
      organize_files_case st st3
        (start_events w ++ found files ++ evs2 ++ evs3) (Some e)
  | RunCompleted files st1 st2 evs2 org unc st3 evs3 :
      scan st = Scanned files → files ≠ [] →
      begin_processing os w st = (st1, None) →
      loop st files st1 = (st2, evs2, Completed org unc) →
      finish_uncategorized os w unc st2 = (st3, evs3, None) →
      organize_files_case st st3
        (start_events w ++ found files ++ evs2 ++ evs3 ++
           completion_events files org unc st3)
        None.
End run_cases.

(** ** Sample data for the examples *)

(** An operating system that refuses nothing. *)
Definition os_permissive : OS :=
  mkOS (λ _, None) (λ _, None) (λ _ _, None).

Definition never_stop : nat → bool := λ _, false.

Definition documents : FileCategory :=
  new_FileCategory "Documents" [".pdf"; ".txt"] "Documents".

Definition images : FileCategory :=
  new_FileCategory "Images" [".jpg"; ".png"] "Images".

(** A download folder with two reports of the same name, and one already
    filed. *)
Definition reports_tree : FS :=
  list_to_map
    [(["inbox"], Dir);
     (["inbox"; "report.pdf"], File 10 0);
     (["inbox"; "old"], Dir);
     (["inbox"; "old"; "report.pdf"], File 20 0);
     (["sorted"], Dir);
     (["sorted"; "Documents"], Dir);
     (["sorted"; "Documents"; "report.pdf"], File 30 0)].


(** Four files in a download folder; [a.TXT] is a document, the two
    pictures are images and nothing claims [notes]. *)
Definition inbox_tree : FS :=
  list_to_map
    [(["inbox"], Dir);
     (["inbox"; "a.TXT"], File 1 0);
     (["inbox"; "b.jpg"], File 2 0);
     (["inbox"; "photo.jpg"], File 3 0);
     (["inbox"; "notes"], File 4 0)].

Definition inbox_worker : Worker := new_Worker ["inbox"] None false.

Definition registry : list FileCategory := [documents; images].

Definition inbox_state : state := mkState inbox_tree registry.

Definition inbox_summary : Summary :=
  {| total_files := 4; organized := 3; uncategorized := 1;
     categories := [("Documents", 1); ("Images", 2)] |}.

(** The stop button is pressed before the sixth reading of the flag. *)
Definition stop_from_5 : nat → bool := λ k, 5 <=? k.

(** An operating system that refuses to move [b.jpg]. *)
Definition os_locked : OS :=
  mkOS (λ _, None) (λ _, None)
       (λ src _, if decide (src = ["inbox"; "b.jpg"])
                 then Some "Permission denied" else None).


(** The Documents category after an earlier run that filed five files,
    then switched off in the registry. *)
Definition stale_documents : FileCategory :=
  {| name := "Documents"; extensions := [".pdf"; ".txt"];
     folder_name := "Documents"; file_count := 5; enabled := false |}.

(** Two enabled categories that both declare [.log]. *)
Definition system_logs : FileCategory :=
  new_FileCategory "System" [".log"; ".journal"] "System".

Definition text_logs : FileCategory :=
  new_FileCategory "Text" [".txt"; ".LOG"] "Text".

(** ** The registry as the window edits it *)

(** [FileOrganizerGUI.init_default_categories] *)
Definition init_default_categories : list FileCategory :=
  [new_FileCategory "Documents"
     [".pdf"; ".doc"; ".docx"; ".txt"; ".rtf"; ".odt"] "Documents";
   new_FileCategory "Images"
     [".jpg"; ".jpeg"; ".png"; ".gif"; ".bmp"; ".svg"; ".tiff"] "Images";
   new_FileCategory "Videos"
     [".mp4"; ".avi"; ".mkv"; ".mov"; ".wmv"; ".flv"; ".webm"] "Videos";
   new_FileCategory "Audio"
     [".mp3"; ".wav"; ".flac"; ".aac"; ".ogg"; ".wma"] "Audio";
   new_FileCategory "Archives"
     [".zip"; ".rar"; ".7z"; ".tar"; ".gz"; ".bz2"] "Archives";
   new_FileCategory "Code"
     [".py"; ".js"; ".html"; ".css"; ".cpp"; ".java"; ".php"] "Code";
   new_FileCategory "Spreadsheets" [".xlsx"; ".xls"; ".csv"; ".ods"]
     "Spreadsheets";
   new_FileCategory "Presentations" [".ppt"; ".pptx"; ".odp"] "Presentations";
   new_FileCategory "Executables" [".exe"; ".msi"; ".deb"; ".dmg"; ".app"]
     "Executables"].

(** [CategoryWidget.on_enabled_changed] on the category at position [j]. *)
Definition on_enabled_changed (j : nat) (checked : bool)
    (cats : list FileCategory) : list FileCategory :=
  alter (set_enabled checked) j cats.

(** [str.isspace] on ASCII: tab to carriage return, the four separators
    and the space. *)
Definition is_whitespace (c : ascii) : bool :=
  let n := nat_of_ascii c in
  ((9 <=? n) && (n <=? 13)) || ((28 <=? n) && (n <=? 32)).

Fixpoint lstrip (s : string) : string :=
  match s with
  | EmptyString => EmptyString
  | String c s' => if is_whitespace c then lstrip s' else s
  end.

Fixpoint rstrip (s : string) : string :=
  match s with
  | EmptyString => EmptyString
  | String c s' =>
      match rstrip s' with
      | EmptyString => if is_whitespace c then EmptyString
                       else String c EmptyString
      | r => String c r
      end
  end.

(** [str.strip()] *)
Definition strip (s : string) : string := lstrip (rstrip s).

(** [str.split(sep)] for a one-character separator. *)
Fixpoint split (sep : ascii) (s : string) : list string :=
  match s with
  | EmptyString => [EmptyString]
  | String c s' =>
      if decide (c = sep) then EmptyString :: split sep s'
      else match split sep s' with
           | piece :: pieces => String c piece :: pieces
           | [] => [String c EmptyString]
           end
  end.

Definition nonempty (s : string) : bool :=
  match s with EmptyString => false | _ => true end.

(** Line 630:
    [[ext.strip() for ext in text.split(',') if ext.strip()]] *)
Definition parse_extensions (text : string) : list string :=
  List.filter nonempty (strip <$> split "," text).

(** Lines 628-639 of [add_custom_category], once the dialog is accepted:
    the new registry, and whether the category was added ([false] is the
    warning box). *)
Definition add_custom_category (name_text extensions_text folder_text : string)
    (cats : list FileCategory) : list FileCategory * bool :=
  let nm := strip name_text in
  let exts := parse_extensions extensions_text in
  let folder := strip folder_text in
  if nonempty nm && match exts with [] => false | _ => true end
     && nonempty folder
  then (cats ++ [new_FileCategory nm exts folder], true)
  else (cats, false).

(** ** Vocabulary of the further properties *)

(** The shape of a [Path.suffix]: empty, or a dot followed by a non-empty
    string without dot. *)
Definition suffix_shaped (e : string) : Prop :=
  e = EmptyString ∨
  ∃ b, e = String "." b ∧ b ≠ EmptyString ∧ rfind "." b = None.

(** No category of the registry declares the empty extension. *)
Definition declares_no_empty (cats : list FileCategory) : Prop :=
  Forall (λ c, EmptyString ∉ extensions c) cats.

(** No extension is declared twice in the registry, by one category or by
    two. *)
Definition declared_once (cats : list FileCategory) : Prop :=
  NoDup (mjoin (extensions <$> cats)).

(** The sum of the counters of the enabled categories. *)
Definition enabled_total (cats : list FileCategory) : nat :=
  sum_list ((λ c, if enabled c then file_count c else 0) <$> cats).


(** A source directory that holds only a sub-directory. *)
Definition empty_inbox : FS :=
  list_to_map [(["inbox"], Dir); (["inbox"; "old"], Dir)].

(** The values handed to the progress bar, in the order of the signals. *)
Definition progress_values (evs : list event) : list progress :=
  omap (λ ev, match ev with progress_updated v => Some v | _ => None end) evs.

(** The log line of a move that failed, of a matched file or of an
    uncategorized one. *)
Definition is_failure (ev : event) : bool :=
  match ev with
  | log_updated (LogMoveError _ _)
  | log_updated (LogUncategorizedError _ _) => true
  | _ => false
  end.

(** A worker whose destination is the source directory itself. *)
Definition inplace_worker : Worker :=
  new_Worker ["inbox"] (Some ["inbox"]) false.

(** The log line of a move into a category folder, done or simulated. *)
Definition is_moved (ev : event) : bool :=
  match ev with
  | log_updated (LogMoved _ _) | log_updated (LogDryMove _ _) => true
  | _ => false
  end.

(** The log line about an uncategorized file, moved or not. *)
Definition is_uncategorized_line (ev : event) : bool :=
  match ev with
  | log_updated (LogMovedUncategorized _)
  | log_updated (LogUncategorizedError _ _) => true
  | _ => false
  end.

(** * Properties *)

(** ** Strings *)

Lemma ascii_lower_idemp (c : ascii) : ascii_lower (ascii_lower c) = ascii_lower c.
Proof. destruct c as [[] [] [] [] [] [] [] []]; reflexivity. Qed.

Lemma lower_idemp (s : string) : lower (lower s) = lower s.
Proof.
  induction s as [|c s IH]; simpl; [reflexivity|].
  by rewrite ascii_lower_idemp, IH.
Qed.

Lemma string_length_app (s t : string) :
  String.length (s +:+ t) = String.length s + String.length t.
Proof. induction s as [|c s IH]; simpl; [reflexivity|]. by rewrite IH. Qed.

Lemma string_app_inv_tail (s1 s2 t : string) : s1 +:+ t = s2 +:+ t → s1 = s2.
Proof.
  revert s2. induction s1 as [|c s1 IH]; intros [|c2 s2] H.
  - reflexivity.
  - apply (f_equal String.length) in H.
    rewrite !string_length_app in H. simpl in H. lia.
  - apply (f_equal String.length) in H.
    rewrite !string_length_app in H. simpl in H. lia.
  - injection H as -> H. f_equal. by apply IH.
Qed.

Lemma new_name_inj (base_name extension : string) :
  Inj (=) (=) (λ counter, new_name base_name counter extension).
Proof.
  intros n m H. unfold new_name in H.
  apply (inj (String.app base_name)) in H.
  apply (inj (String.app "_")) in H.
  apply string_app_inv_tail in H.
  by apply (inj pretty) in H.
Qed.

(** ** Paths *)

Lemma elem_of_parents (d p : Path) :
  d ∈ parents p ↔ ∃ r, r ≠ [] ∧ p = d ++ r.
Proof.
  unfold parents. rewrite list_elem_of_fmap. split.
  - intros (n & -> & Hn). apply elem_of_reverse, elem_of_seq in Hn.
    exists (drop n p). split.
    + intros Hnil. apply (f_equal length) in Hnil.
      rewrite length_drop in Hnil. simpl in Hnil. lia.
    + by rewrite take_drop.
  - intros (r & Hr & ->). exists (length d). split.
    + by rewrite take_app_length.
    + apply elem_of_reverse, elem_of_seq. rewrite length_app.
      destruct r; [done|]. simpl. lia.
Qed.

Lemma in_parents_true (d p : Path) :
  in_parents d p = true ↔ ∃ r, r ≠ [] ∧ p = d ++ r.
Proof.
  unfold in_parents. rewrite bool_decide_eq_true. apply elem_of_parents.
Qed.

Lemma in_parents_joinpath (d : Path) (s : string) : in_parents d (d </> s) = true.
Proof. apply in_parents_true. by exists [s]. Qed.

Lemma in_parents_trans (a b c : Path) :
  in_parents a b = true → in_parents b c = true → in_parents a c = true.
Proof.
  rewrite !in_parents_true. intros (r1 & H1 & ->) (r2 & H2 & ->).
  exists (r1 ++ r2). split; [by destruct r1|]. by rewrite <-(assoc_L (++)).
Qed.

Lemma in_parents_irrefl (p : Path) : in_parents p p = false.
Proof.
  apply not_true_is_false. rewrite in_parents_true. intros (r & Hr & H).
  apply (f_equal length) in H. rewrite length_app in H.
  destruct r; [done|]. simpl in H. lia.
Qed.

(** ** Classifier *)

Lemma claims_spec (extension : string) (c : FileCategory) :
  enabled c && matches_extension c extension = true ↔ claims extension c.
Proof.
  unfold claims, matches_extension.
  rewrite andb_true_iff, bool_decide_eq_true. tauto.
Qed.

Lemma find_category_Some cats extension k i c :
  find_category cats extension k = Some (i, c) ↔
  ∃ n, i = k + n ∧ cats !! n = Some c ∧ claims extension c ∧
       ∀ m c', m < n → cats !! m = Some c' → ¬ claims extension c'.
Proof.
  revert k. induction cats as [|c0 cats IH]; intros k; simpl.
  - split; [done|]. by intros (n & _ & Hn & _).
  - destruct (enabled c0 && matches_extension c0 extension) eqn:E.
    + apply claims_spec in E. split.
      * intros [= <- <-]. exists 0. split; [lia|]. split; [done|].
        split; [done|]. intros m c' Hm. lia.
      * intros (n & -> & Hn & Hc & Hfirst). destruct n as [|n].
        -- simpl in Hn. injection Hn as ->. do 2 f_equal. lia.
        -- exfalso. apply (Hfirst 0 c0); [lia|done|done].
    + assert (¬ claims extension c0) as Hc0.
      { rewrite <-claims_spec, E. done. }
      rewrite IH. split.
      * intros (n & -> & Hn & Hc & Hfirst). exists (S n).
        split; [lia|]. split; [done|]. split; [done|].
        intros [|m] c' Hm Hl; simpl in Hl.
        -- by injection Hl as <-.
        -- apply (Hfirst m c'); [lia|done].
      * intros (n & -> & Hn & Hc & Hfirst). destruct n as [|n].
        -- simpl in Hn. injection Hn as ->. done.
        -- exists n. split; [lia|]. split; [done|]. split; [done|].
           intros m c' Hm Hl. apply (Hfirst (S m) c'); [lia|done].
Qed.

Lemma find_category_None cats extension k :
  find_category cats extension k = None ↔
  ∀ m c', cats !! m = Some c' → ¬ claims extension c'.
Proof.
  revert k. induction cats as [|c0 cats IH]; intros k; simpl.
  - split; [|done]. intros _ m c' Hm. done.
  - destruct (enabled c0 && matches_extension c0 extension) eqn:E.
    + apply claims_spec in E. split; [done|].
      intros H. exfalso. by apply (H 0 c0).
    + assert (¬ claims extension c0) as Hc0.
      { rewrite <-claims_spec, E. done. }
      rewrite IH. split.
      * intros H [|m] c' Hl; simpl in Hl; [by injection Hl as <-|].
        by apply (H m).
      * intros H m c' Hl. by apply (H (S m)).
Qed.

(** C1. Classification returns the first category, in registry order, that
    is enabled and lists the lower-cased extension, and [None] exactly when
    there is none; when two enabled categories list the same extension the
    result is never later than the earlier of them.  The result is a
    function of the registry alone. *)
Theorem classification_first_match (cats : list FileCategory) (ext : string) :
  (∀ i c, get_category_for_extension cats ext = Some (i, c) ↔
          cats !! i = Some c ∧ enabled c = true ∧ lower ext ∈ extensions c ∧
          ∀ j c', j < i → cats !! j = Some c' →
                  ¬ (enabled c' = true ∧ lower ext ∈ extensions c')) ∧
  (get_category_for_extension cats ext = None ↔
   ∀ j c', cats !! j = Some c' →
           ¬ (enabled c' = true ∧ lower ext ∈ extensions c')) ∧
  (∀ i j ci cj, i < j → cats !! i = Some ci → cats !! j = Some cj →
     enabled ci = true → lower ext ∈ extensions ci →
     enabled cj = true → lower ext ∈ extensions cj →
     ∃ k c, get_category_for_extension cats ext = Some (k, c) ∧ (k ≤ i)%nat).
Proof.
  unfold get_category_for_extension. split; [|split].
  - intros i c. rewrite find_category_Some. unfold claims. split.
    + intros (n & -> & Hn & Hc & Hfirst). simpl. tauto.
    + intros (Hn & He & Hx & Hfirst). exists i. simpl. tauto.
  - apply find_category_None.
  - intros i j ci cj Hij Hi Hj Hei Hxi _ _.
    destruct (find_category cats ext 0) as [[k c]|] eqn:E.
    + exists k, c. split; [done|].
      apply find_category_Some in E as (n & -> & Hn & Hc & Hfirst).
      simpl. destruct (decide (n ≤ i)%nat) as [|Hlt]; [done|].
      exfalso. apply (Hfirst i ci); [lia|done|]. by split.
    + exfalso. rewrite find_category_None in E.
      apply (E i ci); [done|]. by split.
Qed.

Lemma classification_first_match_witness :
  ∃ k c, get_category_for_extension [images; system_logs; text_logs] ".log"
           = Some (k, c) ∧ k ≤ 1.
Proof.
  apply (proj2 (proj2 (classification_first_match
                         [images; system_logs; text_logs] ".log"))
           1 2 system_logs text_logs).
  - lia.
  - reflexivity.
  - reflexivity.
  - reflexivity.
  - vm_compute. repeat constructor.
  - reflexivity.
  - vm_compute. repeat constructor.
Defined.

Example log_file_goes_to_the_earlier_category :
  get_category_for_extension [images; system_logs; text_logs] ".LOG"
  = Some (1, system_logs).
Proof. reflexivity. Qed.



(** ** Collision-free naming *)

Section collision.
Variables (fs : FS) (folder : Path) (base_name extension : string).

Local Abbreviation cand := (candidate folder base_name extension).

Lemma candidate_inj : Inj (=) (=) cand.
Proof.
  intros n m H. unfold candidate, joinpath in H.
  apply app_inj_tail in H as [_ H].
  by apply (new_name_inj base_name extension) in H.
Qed.

(** Occupied candidates are entries of the tree: there are at most
    [size fs] of them in a row. *)
Lemma occupied_run_bounded (n len : nat) :
  (∀ k, n ≤ k < n + len → path_exists fs (cand k) = true) →
  len ≤ size fs.
Proof.
  intros Hocc.
  assert (NoDup (cand <$> seq n len)) as Hnd.
  { pose proof candidate_inj. apply (NoDup_fmap_2 cand), NoDup_seq. }
  rewrite <-(length_seq len n), <-(length_fmap cand).
  rewrite <-(size_list_to_set (C:=gset Path)) by done.
  rewrite <-size_dom. apply subseteq_size.
  intros p Hp. apply elem_of_list_to_set, list_elem_of_fmap in Hp
    as (k & -> & Hk).
  apply elem_of_seq in Hk. apply elem_of_dom.
  specialize (Hocc k Hk). unfold path_exists in Hocc.
  by apply bool_decide_eq_true in Hocc.
Qed.

Lemma collision_loop_Some fuel destination n r :
  collision_loop fs folder base_name extension fuel destination n = Some r →
  (path_exists fs destination = false ∧ r = destination) ∨
  (path_exists fs destination = true ∧
   ∃ m, n ≤ m ∧ r = cand m ∧ path_exists fs r = false ∧
        ∀ k, n ≤ k < m → path_exists fs (cand k) = true).
Proof.
  revert destination n. induction fuel as [|fuel IH]; intros d n; simpl.
  - done.
  - destruct (path_exists fs d) eqn:E.
    + intros H. right. split; [done|].
      apply IH in H as [[Hfree ->]|[Hocc (m & Hm & -> & Hfree & Hbelow)]].
      * exists n. split; [lia|]. split; [done|]. split; [done|].
        intros k Hk. lia.
      * exists m. split; [lia|]. split; [done|]. split; [done|].
        intros k Hk. destruct (decide (k = n)) as [->|]; [done|].
        apply Hbelow. lia.
    + intros [= <-]. by left.
Qed.

Lemma collision_loop_None_head fuel destination n :
  collision_loop fs folder base_name extension (S fuel) destination n = None →
  path_exists fs destination = true.
Proof. simpl. by destruct (path_exists fs destination). Qed.

Lemma collision_loop_None fuel destination n :
  collision_loop fs folder base_name extension fuel destination n = None →
  ∀ k, n ≤ k < n + (fuel - 1) → path_exists fs (cand k) = true.
Proof.
  revert destination n. induction fuel as [|fuel IH]; intros d n H k Hk.
  - simpl in Hk. lia.
  - pose proof (collision_loop_None_head _ _ _ H) as Hd.
    simpl in H. rewrite Hd in H.
    destruct fuel as [|fuel]; [simpl in Hk; lia|].
    destruct (decide (k = n)) as [->|].
    + by apply collision_loop_None_head in H.
    + apply (IH _ _ H). simpl in *. lia.
Qed.

(** The loop ends within [size fs + 2] tests of its condition. *)
Lemma collision_loop_total destination n :
  is_Some (collision_loop fs folder base_name extension (size fs + 2)
             destination n).
Proof.
  destruct (collision_loop _ _ _ _ _ _ _) as [r|] eqn:E; [by eexists|].
  exfalso. pose proof (collision_loop_None _ _ _ E) as Hocc.
  apply occupied_run_bounded in Hocc. lia.
Qed.

End collision.

Lemma path_exists_true (fs : FS) (p : Path) :
  path_exists fs p = true ↔ is_Some (fs !! p).
Proof. unfold path_exists. by rewrite bool_decide_eq_true. Qed.

Lemma path_exists_false (fs : FS) (p : Path) :
  path_exists fs p = false ↔ fs !! p = None.
Proof.
  unfold path_exists. by rewrite bool_decide_eq_false, eq_None_not_Some.
Qed.

Lemma free_destination_total (fs : FS) (folder : Path) (file_info : FileInfo) :
  is_Some (free_destination fs folder file_info).
Proof. apply collision_loop_total. Qed.

Lemma free_destination_spec (fs : FS) (folder : Path) (file_info : FileInfo)
    (d : Path) :
  free_destination fs folder file_info = Some d →
  collision_free_name fs folder file_info d.
Proof.
  unfold free_destination. intros H.
  apply collision_loop_Some in H
    as [[Hfree ->]|[Hocc (m & Hm & -> & Hfree & Hbelow)]].
  - apply path_exists_false in Hfree. split; [done|]. by left.
  - apply path_exists_true in Hocc. apply path_exists_false in Hfree.
    split; [done|]. right. split; [done|]. exists m.
    split; [done|]. split; [done|].
    intros k Hk. apply path_exists_true. by apply Hbelow.
Qed.

(** ** Library calls: what they change in the tree *)

Lemma mkdir1_inv (os : OS) (fs fs' : FS) (p : Path) (r : option exn) :
  mkdir1 os fs p = (fs', r) →
  (fs' = fs ∧ (r = None → fs !! p = Some Dir)) ∨
  (fs !! p = None ∧ fs' = <[p := Dir]> fs ∧ r = None).
Proof.
  unfold mkdir1. destruct (fs !! p) as [[|sz mt]|] eqn:E.
  - intros [= <- <-]. by left.
  - intros [= <- <-]. by left.
  - destruct (mkdir_error os p) as [e|].
    + intros [= <- <-]. by left.
    + intros [= <- <-]. by right.
Qed.

Lemma mkdir_from_inv (os : OS) (rest : list string) (fs : FS) (pre : Path)
    (fs' : FS) (r : option exn) :
  mkdir_from os fs pre rest = (fs', r) →
  ∀ q, fs' !! q = fs !! q ∨
       (fs !! q = None ∧ fs' !! q = Some Dir ∧
        in_parents pre q = true ∧ q `prefix_of` pre ++ rest).
Proof.
  revert fs pre. induction rest as [|s rest IH]; intros fs pre; simpl.
  - intros [= <- <-] q. by left.
  - destruct (mkdir1 os fs (pre </> s)) as [fs1 [e|]] eqn:E1.
    + intros [= <- <-] q. apply mkdir1_inv in E1 as [[-> _]|(_ & _ & ?)];
        [by left|done].
    + intros H q. specialize (IH _ _ H q).
      assert (∀ q', in_parents (pre </> s) q' = true →
                    in_parents pre q' = true) as Hup.
      { intros q'. apply in_parents_trans, in_parents_joinpath. }
      unfold joinpath in IH. rewrite <-(assoc_L (++)) in IH. simpl in IH.
      apply mkdir1_inv in E1 as [[-> _]|(Hnone & -> & _)].
      * destruct IH as [IH|(?&?&?&?)]; [by left|]. right. auto.
      * destruct (decide (q = pre </> s)) as [->|Hne].
        -- right. rewrite lookup_insert_eq in IH.
           split; [done|]. split.
           ++ destruct IH as [->|(?&?&_)]; done.
           ++ split; [apply in_parents_joinpath|].
              unfold joinpath. exists rest. by rewrite <-(assoc_L (++)).
        -- rewrite lookup_insert_ne in IH by done.
           destruct IH as [IH|(?&?&?&?)]; [by left|]. right. auto.
Qed.

Lemma mkdir_inv (os : OS) (fs fs' : FS) (p : Path) (r : option exn) :
  mkdir os fs p = (fs', r) →
  ∀ q, fs' !! q = fs !! q ∨
       (fs !! q = None ∧ fs' !! q = Some Dir ∧ q ≠ [] ∧ q `prefix_of` p).
Proof.
  intros H q. apply mkdir_from_inv with (q:=q) in H.
  destruct H as [H|(H1 & H2 & H3 & H4)]; [by left|]. right.
  split; [done|]. split; [done|]. split; [|done].
  intros ->. by rewrite in_parents_irrefl in H3.
Qed.

Lemma mkdir_preserves (os : OS) (fs fs' : FS) (p : Path) (r : option exn)
    (q : Path) (n : node) :
  mkdir os fs p = (fs', r) → fs !! q = Some n → fs' !! q = Some n.
Proof.
  intros H Hq. apply mkdir_inv with (q:=q) in H as [->|(Hnone & _)]; [done|].
  congruence.
Qed.

Lemma shutil_move_inv (os : OS) (fs fs' : FS) (src dst : Path)
    (r : option exn) :
  shutil_move os fs src dst = (fs', r) →
  (fs' = fs ∧ is_Some r) ∨
  (r = None ∧ move_error os src dst = None ∧
   ∃ n, fs !! src = Some n ∧ fs' = <[dst := n]> (delete src fs)).
Proof.
  unfold shutil_move. destruct (fs !! src) as [n|].
  - destruct (move_error os src dst) as [e|] eqn:E.
    + intros [= <- <-]. left. eauto.
    + intros [= <- <-]. right. eauto.
  - intros [= <- <-]. left. eauto.
Qed.


(** ** [move_file] and the step of [handle_uncategorized_files] *)

Lemma move_file_inv (os : OS) (w : Worker) (file_info : FileInfo) (j : nat)
    (category : FileCategory) (st st' : state) (evs : list event) (ok : bool) :
  move_file os w file_info j category st = (st', evs, ok) →
  ∃ fs1 r1,
    mkdir os (st_fs st) (dest_dir w </> folder_name category) = (fs1, r1) ∧
    ((ok = false ∧ st_fs st' = fs1 ∧ st_cats st' = st_cats st ∧
      ∃ e, evs = [log_updated (LogMoveError (fname file_info) e)]) ∨
     (ok = true ∧ r1 = None ∧
      st_cats st' = alter increment_count j (st_cats st) ∧
      evs = [log_updated (LogMoved (fname file_info) (folder_name category))] ∧
      ∃ d, free_destination fs1 (dest_dir w </> folder_name category)
             file_info = Some d ∧
           relocated fs1 (path file_info) d (st_fs st'))).
Proof.
  unfold move_file.
  destruct (mkdir os (st_fs st) _) as [fs1 [e|]] eqn:Emk.
  - intros [= <- <- <-]. exists fs1, (Some e). split; [done|]. left. eauto.
  - destruct (free_destination_total fs1 (dest_dir w </> folder_name category)
                file_info) as [d Hd].
    rewrite Hd.
    destruct (shutil_move os fs1 (path file_info) d) as [fs2 r2] eqn:Emv.
    apply shutil_move_inv in Emv as [[-> [e ->]]|(-> & _ & n & Hn & ->)].
    + intros [= <- <- <-]. exists fs1, None. split; [done|]. left. eauto.
    + intros [= <- <- <-]. exists fs1, None. split; [done|]. right.
      do 4 (split; [done|]). exists d. split; [done|].
      apply free_destination_spec in Hd as [Hfree _]. split; eauto.
Qed.

Lemma move_uncategorized_file_inv (os : OS) (folder : Path)
    (file_info : FileInfo) (fs fs' : FS) (evs : list event) :
  move_uncategorized_file os folder file_info fs = (fs', evs) →
  (fs' = fs ∧
   ∃ e, evs = [log_updated (LogUncategorizedError (fname file_info) e)]) ∨
  (evs = [log_updated (LogMovedUncategorized (fname file_info))] ∧
   ∃ d, free_destination fs folder file_info = Some d ∧
        relocated fs (path file_info) d fs').
Proof.
  unfold move_uncategorized_file.
  destruct (free_destination_total fs folder file_info) as [d Hd].
  rewrite Hd.
  destruct (shutil_move os fs (path file_info) d) as [fs2 r2] eqn:Emv.
  apply shutil_move_inv in Emv as [[-> [e ->]]|(-> & _ & n & Hn & ->)].
  - intros [= <- <-]. left. eauto.
  - intros [= <- <-]. right. split; [done|]. exists d. split; [done|].
    apply free_destination_spec in Hd as [Hfree _]. split; eauto.
Qed.



(** The second [report.pdf] becomes [report_1.pdf], the third
    [report_2.pdf]. *)
Example second_report_is_report_1 :
  free_destination reports_tree ["sorted"; "Documents"]
    (new_FileInfo reports_tree ["inbox"; "report.pdf"])
  = Some ["sorted"; "Documents"; "report_1.pdf"].
Proof. vm_compute. reflexivity. Qed.

Example third_report_is_report_2 :
  free_destination
    (<[["sorted"; "Documents"; "report_1.pdf"] := File 10 0]> reports_tree)
    ["sorted"; "Documents"]
    (new_FileInfo reports_tree ["inbox"; "old"; "report.pdf"])
  = Some ["sorted"; "Documents"; "report_2.pdf"].
Proof. vm_compute. reflexivity. Qed.

Example suffix_and_stem :
  (name_stem "report.pdf", name_suffix "report.pdf") = ("report", ".pdf") ∧
  (name_stem "a.tar.gz", name_suffix "a.tar.gz") = ("a.tar", ".gz") ∧
  (name_stem ".bashrc", name_suffix ".bashrc") = (".bashrc", EmptyString) ∧
  (name_stem "notes", name_suffix "notes") = ("notes", EmptyString).
Proof. repeat split. Qed.

(** ** The classifier does not read the counters *)

Lemma find_category_rules cats cats' extension k :
  rules <$> cats = rules <$> cats' →
  fst <$> find_category cats extension k
  = fst <$> find_category cats' extension k.
Proof.
  revert cats' k. induction cats as [|c cats IH]; intros [|c' cats'] k H;
    try done.
  injection H as _ Hx _ He Hrest. simpl. unfold matches_extension.
  rewrite He, Hx. destruct (enabled c' && _); [done|]. by apply IH.
Qed.

Lemma get_category_rules cats cats' extension :
  rules <$> cats = rules <$> cats' →
  fst <$> get_category_for_extension cats extension
  = fst <$> get_category_for_extension cats' extension.
Proof. apply find_category_rules. Qed.

Lemma rules_alter_increment (j : nat) (cats : list FileCategory) :
  rules <$> alter increment_count j cats = rules <$> cats.
Proof.
  rewrite (list_fmap_alter rules increment_count id).
  - by apply list_alter_id.
  - by apply Forall_forall.
Qed.

Lemma rules_reset_counts (cats : list FileCategory) :
  rules <$> reset_counts cats = rules <$> cats.
Proof.
  unfold reset_counts. rewrite <-list_fmap_compose.
  apply list_fmap_ext. intros i c _. simpl. by destruct (enabled c) eqn:E.
Qed.

Lemma get_category_Some cats extension j c :
  get_category_for_extension cats extension = Some (j, c) →
  cats !! j = Some c ∧ enabled c = true.
Proof.
  unfold get_category_for_extension. intros H.
  apply find_category_Some in H as (n & -> & Hn & [He _] & _). by split.
Qed.

Lemma unmatched_rules w cats cats' f :
  rules <$> cats = rules <$> cats' → unmatched w cats f = unmatched w cats' f.
Proof.
  intros H. unfold unmatched. f_equal. apply bool_decide_ext.
  pose proof (get_category_rules _ _ (extension f) H) as E.
  destruct (get_category_for_extension cats _),
           (get_category_for_extension cats' _); naive_solver.
Qed.

Lemma routed_rules w cats cats' j f :
  rules <$> cats = rules <$> cats' → routed w cats j f = routed w cats' j f.
Proof.
  intros H. unfold routed. by rewrite (get_category_rules _ _ _ H).
Qed.

(** ** One file of the processing loop *)

Section processing.
Variables (os : OS) (should_stop : nat → bool) (w : Worker).

Lemma process_file_outcome f st org unc st' evs org' unc' :
  process_file os w f st org unc = (st', evs, org', unc') →
  file_outcome os w f st org unc st' evs org' unc'.
Proof.
  unfold process_file.
  destruct (in_parents (dest_dir w) (path f)) eqn:Eskip.
  { intros [= <- <- <- <-]. by constructor. }
  destruct (get_category_for_extension (st_cats st) (extension f))
    as [[j c]|] eqn:Ecat.
  - destruct (get_category_Some _ _ _ _ Ecat) as [Hj Hen]. rewrite Hen.
    assert (routed w (st_cats st) j f = true) as Hr.
    { unfold routed, skipped. rewrite Eskip, Ecat. simpl.
      by apply bool_decide_eq_true. }
    destruct (dry_run w) eqn:Edry.
    + intros [= <- <- <- <-]. by eapply Simulated.
    + destruct (move_file os w f j c st) as [[st1 evs1] [|]] eqn:Emv;
        intros [= <- <- <- <-].
      * by eapply Moved.
      * by eapply MoveFailed.
  - intros [= <- <- <- <-]. apply LeftUnmatched.
    unfold unmatched, skipped. rewrite Eskip, Ecat. done.
Qed.

(** Induction on the iterations of the processing loop. *)
Lemma process_loop_ind' (base total : nat)
    (P : list FileInfo → nat → state → nat → list FileInfo →
         state → list event → loop_result → Prop) :
  (∀ i st org unc, P [] i st org unc st [] (Completed org unc)) →
  (∀ f rest i st org unc,
     should_stop (base + i) = true →
     P (f :: rest) i st org unc st [] Stopped) →
  (∀ f rest i st org unc st1 evs1 org1 unc1 st2 evs2 r,
     should_stop (base + i) = false →
     file_outcome os w f st org unc st1 evs1 org1 unc1 →
     process_loop os should_stop w base total rest (S i) st1 org1 unc1
       = (st2, evs2, r) →
     P rest (S i) st1 org1 unc1 st2 evs2 r →
     P (f :: rest) i st org unc st2
       ([progress_updated (Ratio i total);
         status_updated ("Processing: " +:+ fname f)] ++ evs1 ++ evs2) r) →
  ∀ files i st org unc st' evs r,
    process_loop os should_stop w base total files i st org unc
      = (st', evs, r) →
    P files i st org unc st' evs r.
Proof.
  intros Hnil Hstop Hstep files.
  induction files as [|f rest IH]; intros i st org unc st' evs r; simpl.
  - intros [= <- <- <-]. apply Hnil.
  - destruct (should_stop (base + i)) eqn:Es.
    { intros [= <- <- <-]. by apply Hstop. }
    destruct (process_file os w f st org unc) as [[[st1 evs1] org1] unc1]
      eqn:Ef.
    destruct (process_loop _ _ _ _ _ _ _ _ _ _) as [[st2 evs2] r2] eqn:El.
    intros [= <- <- <-].
    eapply Hstep; eauto using process_file_outcome.
Qed.

Lemma file_outcome_rules f st org unc st' evs org' unc' :
  file_outcome os w f st org unc st' evs org' unc' →
  rules <$> st_cats st' = rules <$> st_cats st.
Proof.
  intros [| | j c | j c st1 evs1 _ _ _ Hmv | j c st1 evs1 _ _ _ Hmv];
    try done.
  - apply rules_alter_increment.
  - apply move_file_inv in Hmv as (? & ? & _ & [(? & _)|(_ & _ & -> & _)]);
      [done|]. apply rules_alter_increment.
  - apply move_file_inv in Hmv as (? & ? & _ & [(_ & _ & -> & _)|(? & _)]);
      done.
Qed.

Lemma process_loop_rules base total files i st org unc st' evs r :
  process_loop os should_stop w base total files i st org unc
    = (st', evs, r) →
  rules <$> st_cats st' = rules <$> st_cats st.
Proof.
  revert files i st org unc st' evs r.
  apply process_loop_ind'; try done.
  intros f rest i st org unc st1 evs1 org1 unc1 st2 evs2 r _ Hf _ IH.
  rewrite IH. by eapply file_outcome_rules.
Qed.

(** The events of one file: at most one log line, a move error exactly
    when the move failed. *)
Lemma file_outcome_events f st org unc st' evs org' unc' :
  file_outcome os w f st org unc st' evs org' unc' →
  Forall (λ ev, is_summary ev = false ∧ is_error ev = false) evs ∧
  org' + length (List.filter is_move_error evs)
    + (if unmatched w (st_cats st) f then 1 else 0)
    + (if skipped w f then 1 else 0) = org + 1.
Proof.
  assert (∀ j, routed w (st_cats st) j f = true →
               unmatched w (st_cats st) f = false ∧ skipped w f = false)
    as Hrouted.
  { unfold routed, unmatched. intros j [Hs Hj]%andb_true_iff.
    apply negb_true_iff in Hs. rewrite Hs. split; [|done]. simpl.
    apply bool_decide_eq_true in Hj. apply bool_decide_eq_false.
    intros E. by rewrite E in Hj. }
  intros [Hs | Hu | j c _ Hr _ | j c st1 evs1 _ Hr _ Hmv
          | j c st1 evs1 _ Hr _ Hmv].
  - unfold unmatched. rewrite Hs. simpl. split; [constructor|lia].
  - rewrite Hu. unfold unmatched in Hu.
    apply andb_true_iff in Hu as [Hs%negb_true_iff _]. rewrite Hs.
    simpl. split; [constructor|lia].
  - destruct (Hrouted j Hr) as [-> ->]. simpl.
    split; [by repeat constructor|lia].
  - destruct (Hrouted j Hr) as [-> ->].
    apply move_file_inv in Hmv as (? & ? & _ & [(? & _)|(_ & _ & _ & -> & _)]);
      [done|]. simpl. split; [by repeat constructor|lia].
  - destruct (Hrouted j Hr) as [-> ->].
    apply move_file_inv in Hmv
      as (? & ? & _ & [(_ & _ & _ & e & ->)|(? & _)]); [|done].
    simpl. split; [by repeat constructor|lia].
Qed.

Lemma file_outcome_uncategorized f st org unc st' evs org' unc' :
  file_outcome os w f st org unc st' evs org' unc' →
  unc' = unc ++ List.filter (unmatched w (st_cats st)) [f].
Proof.
  assert (∀ j, routed w (st_cats st) j f = true →
               unmatched w (st_cats st) f = false) as Hrouted.
  { unfold routed, unmatched. intros j [Hs Hj]%andb_true_iff.
    rewrite Hs. simpl.
    apply bool_decide_eq_true in Hj. apply bool_decide_eq_false.
    intros E. by rewrite E in Hj. }
  intros [Hs | Hu | j c _ Hr _ | j c st1 evs1 _ Hr _ Hmv
          | j c st1 evs1 _ Hr _ Hmv]; simpl.
  - unfold unmatched. rewrite Hs. simpl. by rewrite app_nil_r.
  - by rewrite Hu.
  - rewrite (Hrouted j Hr). by rewrite app_nil_r.
  - rewrite (Hrouted j Hr). by rewrite app_nil_r.
  - rewrite (Hrouted j Hr). by rewrite app_nil_r.
Qed.

(** The processing loop emits neither a summary nor an error. *)
Lemma process_loop_events base total files i st org unc st' evs r :
  process_loop os should_stop w base total files i st org unc
    = (st', evs, r) →
  Forall (λ ev, is_summary ev = false ∧ is_error ev = false) evs.
Proof.
  revert files i st org unc st' evs r.
  apply process_loop_ind'; try by constructor.
  intros f rest i st org unc st1 evs1 org1 unc1 st2 evs2 r _ Hf _ IH.
  apply file_outcome_events in Hf as [Hf _].
  repeat (apply Forall_cons; split; [done|]). by apply Forall_app.
Qed.

(** The loop ends normally exactly when the flag is clear at each of its
    readings. *)
Lemma process_loop_stop base total files i st org unc st' evs r :
  process_loop os should_stop w base total files i st org unc
    = (st', evs, r) →
  match r with
  | Completed _ _ =>
      ∀ k, k < length files → should_stop (base + (i + k)) = false
  | Stopped =>
      ∃ k, k < length files ∧ should_stop (base + (i + k)) = true
  end.
Proof.
  revert files i st org unc st' evs r.
  apply process_loop_ind'.
  - intros i st org unc k Hk. simpl in Hk. lia.
  - intros f rest i st org unc Hs. exists 0. simpl.
    split; [lia|]. by rewrite Nat.add_0_r.
  - intros f rest i st org unc st1 evs1 org1 unc1 st2 evs2 r Hs _ _ IH.
    destruct r as [|org2 unc2].
    + destruct IH as (k & Hk & Hstop). exists (S k). simpl.
      split; [lia|]. by replace (i + S k) with (S i + k) by lia.
    + intros [|k] Hk; simpl in Hk.
      * by rewrite Nat.add_0_r.
      * replace (i + S k) with (S i + k) by lia. apply IH. lia.
Qed.

(** When the loop ends normally, the uncategorized list has grown by the
    unmatched files, and every file is accounted for once. *)
Lemma process_loop_accounts base total files i st org unc st' evs r :
  process_loop os should_stop w base total files i st org unc
    = (st', evs, r) →
  match r with
  | Stopped => True
  | Completed org' unc' =>
      unc' = unc ++ List.filter (unmatched w (st_cats st)) files ∧
      org' + length (List.filter is_move_error evs)
        + length (List.filter (unmatched w (st_cats st)) files)
        + length (List.filter (skipped w) files) = org + length files
  end.
Proof.
  revert files i st org unc st' evs r.
  apply process_loop_ind'.
  - intros i st org unc. simpl. split; [by rewrite app_nil_r|lia].
  - done.
  - intros f rest i st org unc st1 evs1 org1 unc1 st2 evs2 r _ Hf Hl IH.
    destruct r as [|org' unc']; [done|]. destruct IH as [IHu IHc].
    pose proof (file_outcome_rules _ _ _ _ _ _ _ _ Hf) as Hrules.
    rewrite (List.filter_ext _ _ (λ g, unmatched_rules w _ _ g Hrules))
      in IHu, IHc.
    pose proof (file_outcome_uncategorized _ _ _ _ _ _ _ _ Hf) as Hu.
    apply file_outcome_events in Hf as [_ Hc].
    split.
    + rewrite IHu, Hu, <-(assoc_L (++)). f_equal. simpl.
      by destruct (unmatched w (st_cats st) f).
    + simpl. rewrite !List.filter_app, !length_app.
      destruct (unmatched w (st_cats st) f), (skipped w f); simpl in *; lia.
Qed.

(** ** Scanning *)

Lemma scan_loop_Scanned fs entries k acc files :
  scan_loop os should_stop fs entries k acc = Scanned files →
  files = acc ++ (new_FileInfo fs <$> List.filter (is_file fs) entries) ∧
  (∀ m, m < length entries → should_stop (k + m) = false) ∧
  Forall (λ p, stat_error os p = None) entries.
Proof.
  revert k acc. induction entries as [|p entries IH]; intros k acc; simpl.
  - intros [= <-]. rewrite app_nil_r.
    split; [done|]. split; [intros m Hm; lia|constructor].
  - destruct (should_stop k) eqn:Es; [done|].
    destruct (stat_error os p) eqn:Ee; [done|].
    assert (∀ acc', scan_loop os should_stop fs entries (S k) acc'
                      = Scanned files →
              ∀ m, m < S (length entries) → should_stop (k + m) = false)
      as Hstop.
    { intros acc' H [|m] Hm; [by rewrite Nat.add_0_r|].
      apply IH in H as (_ & H & _).
      replace (k + S m) with (S k + m) by lia. apply H. lia. }
    destruct (is_file fs p) eqn:Ef; intros H.
    + split; [|split; [by eapply Hstop|]].
      * apply IH in H as (-> & _). simpl. by rewrite <-(assoc_L (++)).
      * apply IH in H as (_ & _ & H). by constructor.
    + split; [|split; [by eapply Hstop|]].
      * by apply IH in H as (-> & _).
      * apply IH in H as (_ & _ & H). by constructor.
Qed.

Lemma scan_Scanned fs source files :
  scan_loop os should_stop fs (rglob fs source) 0 [] = Scanned files →
  files = scanned_files fs source ∧
  ∀ m, m < length (rglob fs source) → should_stop m = false.
Proof.
  intros H. apply scan_loop_Scanned in H as (-> & H & _). by split.
Qed.

(** ** The uncategorized files *)

Lemma move_uncategorized_events folder files fs fs' evs :
  move_uncategorized os folder files fs = (fs', evs) →
  Forall (λ ev, is_summary ev = false ∧ is_error ev = false ∧
                is_move_error ev = false) evs.
Proof.
  revert fs fs' evs. induction files as [|f files IH]; intros fs fs' evs;
    simpl.
  - intros [= <- <-]. constructor.
  - destruct (move_uncategorized_file os folder f fs) as [fs1 evs1] eqn:E1.
    destruct (move_uncategorized os folder files fs1) as [fs2 evs2] eqn:E2.
    intros [= <- <-]. apply Forall_app. split; [|by eapply IH].
    apply move_uncategorized_file_inv in E1 as [(_ & e & ->)|(-> & _)];
      by repeat constructor.
Qed.

Lemma finish_uncategorized_inv unc st st' evs x :
  finish_uncategorized os w unc st = (st', evs, x) →
  st_cats st' = st_cats st ∧
  Forall (λ ev, is_summary ev = false ∧ is_error ev = false ∧
                is_move_error ev = false) evs.
Proof.
  unfold finish_uncategorized, handle_uncategorized_files.
  destruct (dry_run w); [by intros [= <- <- <-]|].
  destruct unc as [|f unc]; [by intros [= <- <- <-]|].
  destruct (mkdir os (st_fs st) _) as [fs1 [e|]]; [by intros [= <- <- <-]|].
  destruct (move_uncategorized _ _ _ _) as [fs2 evs2] eqn:E.
  intros [= <- <- <-]. split; [done|]. by eapply move_uncategorized_events.
Qed.

(** ** The whole run *)

Lemma organize_files_cases st st' evs x :
  organize_files os should_stop w st = (st', evs, x) →
  organize_files_case os should_stop w st st' evs x.
Proof.
  unfold organize_files.
  destruct (scan_loop _ _ _ _ _ _) as [|e|files] eqn:Escan.
  - intros [= <- <- <-]. by constructor.
  - intros [= <- <- <-]. by constructor.
  - destruct files as [|f0 files0].
    { intros [= <- <- <-]. by constructor. }
    set (files := f0 :: files0) in *.
    assert (files ≠ []) as Hne by done. clearbody files.
    destruct (begin_processing os w st) as [st1 [e|]] eqn:Eb.
    { intros [= <- <- <-]. by eapply RootFailed. }
    destruct (process_loop _ _ _ _ _ _ _ _ _ _) as [[st2 evs2] [|org unc]]
      eqn:El.
    { intros [= <- <- <-]. by eapply ProcessingInterrupted. }
    destruct (finish_uncategorized os w unc st2) as [[st3 evs3] [e|]] eqn:Ef.
    + intros [= <- <- <-]. by eapply UncategorizedFailed.
    + intros [= <- <- <-]. by eapply RunCompleted.
Qed.

Lemma start_events_plain :
  Forall (λ ev, is_summary ev = false ∧ is_error ev = false ∧
                is_move_error ev = false) (start_events w).
Proof. by repeat constructor. Qed.

Lemma run_cases st st' evs :
  run os should_stop w st = (st', evs) →
  ∃ evs0 x,
    organize_files_case os should_stop w st st' evs0 x ∧
    evs = evs0 ++ match x with Some e => [error_occurred e] | None => [] end.
Proof.
  unfold run.
  destruct (organize_files os should_stop w st) as [[st1 evs1] [e|]] eqn:E;
    intros [= <- <-]; apply organize_files_cases in E.
  - by exists evs1, (Some e).
  - exists evs1, None. by rewrite app_nil_r.
Qed.

Lemma not_summary_elem (P : event → Prop) (l : list event) (s : Summary) :
  Forall (λ ev, is_summary ev = false ∧ P ev) l → finished s ∉ l.
Proof.
  intros H Hin. rewrite Forall_forall in H. by destruct (H _ Hin).
Qed.

(** A run that emits a summary: the scan was complete, the stop flag was
    clear whenever it was read, and the summary is the last event. *)
Lemma run_finished_inv st st' evs s :
  run os should_stop w st = (st', evs) →
  finished s ∈ evs →
  let entries := rglob (st_fs st) (source_dir w) in
  let files := scanned_files (st_fs st) (source_dir w) in
  scan_loop os should_stop (st_fs st) entries 0 [] = Scanned files ∧
  (∀ m, m < length entries + length files → should_stop m = false) ∧
  ((files = [] ∧ s = mkSummary 0 0 0 [] ∧ st' = st ∧
    evs = start_events w ++ [log_updated LogNoFiles; finished s]) ∨
   (files ≠ [] ∧
    ∃ st1 st2 evs2 org unc evs3,
      begin_processing os w st = (st1, None) ∧
      process_loop os should_stop w (length entries) (length files)
        files 0 st1 0 [] = (st2, evs2, Completed org unc) ∧
      finish_uncategorized os w unc st2 = (st', evs3, None) ∧
      s = make_summary files org unc (st_cats st') ∧
      evs = start_events w ++ [log_updated (LogFound (length files))] ++
            evs2 ++ evs3 ++ completion_events files org unc st')).
Proof.
  intros Hrun Hin. cbv zeta.
  apply run_cases in Hrun as (evs0 & x & Hcase & ->).
  pose proof start_events_plain as Hstart.
  destruct Hcase as
    [ Hscan | e Hscan | Hscan | fs0 st1 e Hscan Hne Hb
    | fs0 st1 st2 evs2 Hscan Hne Hb Hl
    | fs0 st1 st2 evs2 org unc st3 evs3 e Hscan Hne Hb Hl Hf
    | fs0 st1 st2 evs2 org unc st3 evs3 Hscan Hne Hb Hl Hf ];
    try (pose proof Hscan as Hscan0;
         apply scan_Scanned in Hscan as [Hfiles Hclear]; try subst fs0);
    set (entries := rglob (st_fs st) (source_dir w)) in *;
    set (files := scanned_files (st_fs st) (source_dir w)) in *.
  - exfalso. rewrite app_nil_r in Hin.
    exact (not_summary_elem _ _ _ Hstart Hin).
  - exfalso. rewrite app_nil_r in Hin. apply elem_of_app in Hin as [Hin|Hin].
    + exact (not_summary_elem _ _ _ Hstart Hin).
    + by apply list_elem_of_singleton in Hin.
  - rewrite app_nil_r in *. apply elem_of_app in Hin as [Hin|Hin].
    { exfalso. exact (not_summary_elem _ _ _ Hstart Hin). }
    apply elem_of_cons in Hin as [Hin|Hin]; [done|].
    apply list_elem_of_singleton in Hin as [= ->].
    split; [by rewrite <-Hfiles|]. split; [|by left].
    intros m Hm. rewrite <-Hfiles in Hm. simpl in Hm. apply Hclear. lia.
  - exfalso. rewrite !elem_of_app in Hin. destruct Hin as [[Hin|Hin]|Hin].
    + exact (not_summary_elem _ _ _ Hstart Hin).
    + by apply list_elem_of_singleton in Hin.
    + by apply list_elem_of_singleton in Hin.
  - exfalso. rewrite app_nil_r, !elem_of_app in Hin.
    apply process_loop_events in Hl.
    destruct Hin as [Hin|[Hin|Hin]].
    + exact (not_summary_elem _ _ _ Hstart Hin).
    + by apply list_elem_of_singleton in Hin.
    + exact (not_summary_elem _ _ _ Hl Hin).
  - exfalso. rewrite !elem_of_app in Hin.
    apply process_loop_events in Hl.
    apply finish_uncategorized_inv in Hf as [_ Hf].
    destruct Hin as [[Hin|[Hin|[Hin|Hin]]]|Hin].
    + exact (not_summary_elem _ _ _ Hstart Hin).
    + by apply list_elem_of_singleton in Hin.
    + exact (not_summary_elem _ _ _ Hl Hin).
    + exact (not_summary_elem _ _ _ Hf Hin).
    + by apply list_elem_of_singleton in Hin.
  - rewrite app_nil_r in *. rewrite !elem_of_app in Hin.
    pose proof (process_loop_events _ _ _ _ _ _ _ _ _ _ Hl) as Hevs2.
    pose proof (process_loop_stop _ _ _ _ _ _ _ _ _ _ Hl) as Hclear2.
    simpl in Hclear2.
    pose proof (finish_uncategorized_inv _ _ _ _ _ Hf) as [_ Hevs3].
    split; [done|]. split.
    { intros m Hm. destruct (decide (m < length entries)) as [|Hge].
      - by apply Hclear.
      - replace m with (length entries + (m - length entries)) by lia.
        apply Hclear2. lia. }
    right. split; [done|].
    exists st1, st2, evs2, org, unc, evs3. do 3 (split; [done|]).
    split; [|done].
    destruct Hin as [Hin|[Hin|[Hin|[Hin|Hin]]]].
    + exfalso. exact (not_summary_elem _ _ _ Hstart Hin).
    + by apply list_elem_of_singleton in Hin.
    + exfalso. exact (not_summary_elem _ _ _ Hevs2 Hin).
    + exfalso. exact (not_summary_elem _ _ _ Hevs3 Hin).
    + unfold completion_events in Hin.
      repeat (apply elem_of_cons in Hin as [Hin|Hin]; [done|]).
      by apply list_elem_of_singleton in Hin as [= ->].
Qed.

End processing.

Lemma begin_processing_inv (os : OS) (w : Worker) (st st1 : state) :
  begin_processing os w st = (st1, None) →
  st_cats st1 = reset_counts (st_cats st) ∧
  (if dry_run w then st_fs st1 = st_fs st
   else mkdir os (st_fs st) (dest_dir w) = (st_fs st1, None)).
Proof.
  unfold begin_processing. destruct (dry_run w).
  - by intros [= <-].
  - destruct (mkdir os (st_fs st) (dest_dir w)) as [fs1 [e|]]; [done|].
    by intros [= <-].
Qed.

Lemma filter_move_error_nil (l : list event) :
  Forall (λ ev, is_summary ev = false ∧ is_error ev = false ∧
                is_move_error ev = false) l →
  List.filter is_move_error l = [].
Proof.
  induction 1 as [|ev l (_ & _ & Hev) _ IH]; simpl; [done|]. by rewrite Hev.
Qed.

(** C6. A run that reads the stop flag as set, at any of its readings
    during the scan or between two files, emits no summary; and a summary,
    when there is one, is the last event of the run. *)
Theorem stopped_run_emits_no_summary (os : OS) (should_stop : nat → bool)
    (w : Worker) (st st' : state) (evs : list event) :
  run os should_stop w st = (st', evs) →
  ((∃ k, k < length (rglob (st_fs st) (source_dir w))
             + length (scanned_files (st_fs st) (source_dir w)) ∧
         should_stop k = true) →
   ∀ s, finished s ∉ evs) ∧
  (∀ s, finished s ∈ evs →
        ∃ pre, evs = pre ++ [finished s] ∧ ∀ s', finished s' ∉ pre).
Proof.
  intros Hrun. split.
  - intros (k & Hk & Hstop) s Hin.
    destruct (run_finished_inv _ _ _ _ _ _ _ Hrun Hin) as (_ & Hclear & _).
    rewrite (Hclear k Hk) in Hstop. done.
  - intros s Hin.
    destruct (run_finished_inv _ _ _ _ _ _ _ Hrun Hin) as (_ & _ & Hcases).
    pose proof (start_events_plain w) as Hstart.
    destruct Hcases as [(_ & _ & _ & ->)|(_ & Hcases)].
    + exists (start_events w ++ [log_updated LogNoFiles]).
      split; [by rewrite <-(assoc_L (++))|].
      intros s' Hin'. apply elem_of_app in Hin' as [Hin'|Hin'].
      * exact (not_summary_elem _ _ _ Hstart Hin').
      * by apply list_elem_of_singleton in Hin'.
    + destruct Hcases as (st1 & st2 & evs2 & org & unc & evs3 & _ & Hl & Hf
                          & -> & ->).
      apply process_loop_events in Hl.
      apply finish_uncategorized_inv in Hf as [_ Hf].
      set (found := [log_updated (LogFound _)]).
      exists (start_events w ++ found ++ evs2 ++ evs3 ++
              [progress_updated (Percent 100); status_updated "Complete!";
               log_updated (LogComplete org)]).
      split.
      { unfold completion_events. by rewrite <-!(assoc_L (++)). }
      intros s' Hin'. rewrite !elem_of_app in Hin'.
      destruct Hin' as [Hin'|[Hin'|[Hin'|[Hin'|Hin']]]].
      * exact (not_summary_elem _ _ _ Hstart Hin').
      * by apply list_elem_of_singleton in Hin'.
      * exact (not_summary_elem _ _ _ Hl Hin').
      * exact (not_summary_elem _ _ _ Hf Hin').
      * repeat (apply elem_of_cons in Hin' as [Hin'|Hin']; [done|]).
        by apply elem_of_nil in Hin'.
Qed.

(** C10. In the summary of a completed run the uncategorized count is the
    number of scanned files that are not passed over and that no enabled
    category claims, whatever the operating system did with their moves. *)
Theorem uncategorized_count_is_unmatched (os : OS) (should_stop : nat → bool)
    (w : Worker) (st st' : state) (evs : list event) (s : Summary) :
  run os should_stop w st = (st', evs) →
  finished s ∈ evs →
  uncategorized s
  = length (List.filter (unmatched w (st_cats st))
              (scanned_files (st_fs st) (source_dir w))).
Proof.
  intros Hrun Hin.
  destruct (run_finished_inv _ _ _ _ _ _ _ Hrun Hin) as (_ & _ & Hcases).
  destruct Hcases as [(-> & -> & _)|(_ & Hcases)]; [done|].
  destruct Hcases as (st1 & st2 & evs2 & org & unc & evs3 & Hb & Hl & _
                      & -> & _).
  apply begin_processing_inv in Hb as [Hcats _].
  apply process_loop_accounts in Hl as [-> _]. simpl. f_equal.
  apply List.filter_ext. intros f. apply unmatched_rules.
  rewrite Hcats. apply rules_reset_counts.
Qed.



Example inbox_run :
  (run os_permissive never_stop inbox_worker inbox_state).2
  = [log_updated (LogStarting false);
     log_updated (LogSource ["inbox"]);
     log_updated (LogDestination ["inbox"; "Organized"]);
     status_updated "Scanning files...";
     log_updated (LogFound 4);
     progress_updated (Ratio 0 4); status_updated "Processing: notes";
     progress_updated (Ratio 1 4); status_updated "Processing: photo.jpg";
     log_updated (LogMoved "photo.jpg" "Images");
     progress_updated (Ratio 2 4); status_updated "Processing: b.jpg";
     log_updated (LogMoved "b.jpg" "Images");
     progress_updated (Ratio 3 4); status_updated "Processing: a.TXT";
     log_updated (LogMoved "a.TXT" "Documents");
     log_updated (LogMovedUncategorized "notes");
     progress_updated (Percent 100); status_updated "Complete!";
     log_updated (LogComplete 3);
     finished inbox_summary].
Proof. vm_compute. reflexivity. Qed.

Lemma stopped_run_emits_no_summary_witness :
  (∀ s, finished s ∉
          (run os_permissive stop_from_5 inbox_worker inbox_state).2) ∧
  (∃ pre,
     (run os_permissive never_stop inbox_worker inbox_state).2
       = pre ++ [finished inbox_summary] ∧
     ∀ s', finished s' ∉ pre).
Proof.
  split.
  - set (r := run os_permissive stop_from_5 inbox_worker inbox_state).
    apply (proj1 (stopped_run_emits_no_summary os_permissive stop_from_5
                    inbox_worker inbox_state r.1 r.2 (surjective_pairing r))).
    exists 5. split; [apply Nat.ltb_lt|]; vm_compute; reflexivity.
  - set (r := run os_permissive never_stop inbox_worker inbox_state).
    apply (proj2 (stopped_run_emits_no_summary os_permissive never_stop
                    inbox_worker inbox_state r.1 r.2 (surjective_pairing r))).
    vm_compute. repeat constructor.
Defined.

Lemma uncategorized_count_is_unmatched_witness :
  uncategorized inbox_summary
  = length (List.filter (unmatched inbox_worker registry)
              (scanned_files inbox_tree ["inbox"])).
Proof.
  set (r := run os_permissive never_stop inbox_worker inbox_state).
  apply (uncategorized_count_is_unmatched os_permissive never_stop
           inbox_worker inbox_state r.1 r.2 inbox_summary
           (surjective_pairing r)).
  vm_compute. repeat constructor.
Defined.


(** ** Failures *)







(** ** Counters *)

Lemma count_at_alter_increment (cats : list FileCategory) (j j0 : nat)
    (c : FileCategory) :
  cats !! j0 = Some c →
  count_at (alter increment_count j0 cats) j
  = count_at cats j + (if decide (j = j0) then 1 else 0).
Proof.
  intros Hc. unfold count_at. destruct (decide (j = j0)) as [->|Hne].
  - rewrite list_lookup_alter_eq, Hc. simpl. lia.
  - rewrite list_lookup_alter_ne by done. lia.
Qed.

Lemma routed_functional w cats j j0 f :
  routed w cats j f = true → routed w cats j0 f = true → j = j0.
Proof.
  unfold routed. intros [_ H1]%andb_true_iff [_ H2]%andb_true_iff.
  apply bool_decide_eq_true in H1, H2. congruence.
Qed.

Lemma routed_decide w cats j j0 f :
  routed w cats j0 f = true →
  routed w cats j f = if decide (j = j0) then true else false.
Proof.
  intros H. destruct (decide (j = j0)) as [->|Hne]; [done|].
  apply not_true_is_false. intros H'. by apply Hne, (routed_functional w cats _ _ f).
Qed.

Lemma not_routed w cats j f :
  skipped w f = true ∨ unmatched w cats f = true → routed w cats j f = false.
Proof.
  unfold routed, unmatched. intros [->|[-> Hu]%andb_true_iff]; [done|].
  simpl. apply bool_decide_eq_true in Hu. rewrite Hu.
  by apply bool_decide_eq_false.
Qed.

Section counters.
Variables (os : OS) (should_stop : nat → bool) (w : Worker).

Lemma file_outcome_count j f st org unc st' evs org' unc' :
  file_outcome os w f st org unc st' evs org' unc' →
  count_at (st_cats st') j + length (List.filter is_move_error evs)
    ≥ count_at (st_cats st) j + (if routed w (st_cats st) j f then 1 else 0) ∧
  count_at (st_cats st') j
    ≤ count_at (st_cats st) j + (if routed w (st_cats st) j f then 1 else 0).
Proof.
  intros [Hs | Hu | j0 c _ Hr Hc | j0 c st1 evs1 _ Hr Hc Hmv
          | j0 c st1 evs1 _ Hr Hc Hmv].
  - rewrite (not_routed w _ j f) by auto. simpl. lia.
  - rewrite (not_routed w _ j f) by auto. simpl. lia.
  - simpl. rewrite (count_at_alter_increment _ _ _ _ Hc).
    rewrite (routed_decide _ _ j j0 f Hr). destruct (decide (j = j0)); lia.
  - apply move_file_inv in Hmv
      as (? & ? & _ & [(? & _)|(_ & _ & -> & -> & _)]); [done|].
    simpl. rewrite (count_at_alter_increment _ _ _ _ Hc).
    rewrite (routed_decide _ _ j j0 f Hr). destruct (decide (j = j0)); lia.
  - apply move_file_inv in Hmv
      as (? & ? & _ & [(_ & _ & -> & e & ->)|(? & _)]); [|done].
    simpl. destruct (routed w (st_cats st) j f); lia.
Qed.

(** A counter grows by at most the number of files routed to its
    category, and by exactly that number when no move fails. *)
Lemma process_loop_count j base total files i st org unc st' evs r :
  process_loop os should_stop w base total files i st org unc
    = (st', evs, r) →
  count_at (st_cats st') j
    ≤ count_at (st_cats st) j
      + length (List.filter (routed w (st_cats st) j) files) ∧
  match r with
  | Stopped => True
  | Completed _ _ =>
      count_at (st_cats st') j + length (List.filter is_move_error evs)
      ≥ count_at (st_cats st) j
        + length (List.filter (routed w (st_cats st) j) files)
  end.
Proof.
  revert files i st org unc st' evs r.
  apply process_loop_ind'.
  - intros i st org unc. simpl. lia.
  - intros f rest i st org unc _. simpl. split; [lia|done].
  - intros f rest i st org unc st1 evs1 org1 unc1 st2 evs2 r _ Hf Hl
      [IHle IHge].
    pose proof (file_outcome_rules _ _ _ _ _ _ _ _ _ _ Hf) as Hrules.
    rewrite (List.filter_ext _ _ (λ g, routed_rules w _ _ j g Hrules))
      in IHle, IHge.
    destruct (file_outcome_count j _ _ _ _ _ _ _ _ Hf) as [Hge Hle].
    simpl. rewrite !List.filter_app, !length_app.
    split.
    + destruct (routed w (st_cats st) j f); simpl in *; lia.
    + destruct r; [done|].
      destruct (routed w (st_cats st) j f); simpl in *; lia.
Qed.

End counters.

(** ** The per-category entries of the summary *)

Lemma dict_get_set_eq (d : list (string * nat)) (k : string) (v : nat) :
  dict_get (dict_set d k v) k = Some v.
Proof.
  induction d as [|[k' v'] d IH]; simpl.
  - by rewrite decide_True.
  - destruct (decide (k' = k)) as [->|Hne]; simpl.
    + by rewrite decide_True.
    + by rewrite decide_False.
Qed.

Lemma dict_get_set_ne (d : list (string * nat)) (k k0 : string) (v : nat) :
  k ≠ k0 → dict_get (dict_set d k v) k0 = dict_get d k0.
Proof.
  intros Hne. induction d as [|[k' v'] d IH]; simpl.
  - by rewrite decide_False.
  - destruct (decide (k' = k)) as [->|Hne']; simpl.
    + by rewrite !decide_False.
    + destruct (decide (k' = k0)); [done|]. apply IH.
Qed.

Lemma summary_fold_unique (d : list (string * nat))
    (cats : list FileCategory) (j : nat) (c : FileCategory) :
  cats !! j = Some c →
  (∀ k c2, cats !! k = Some c2 → name c2 = name c → k = j) →
  dict_get
    (foldl (λ d cat, if 0 <? file_count cat
                     then dict_set d (name cat) (file_count cat) else d)
       d cats) (name c)
  = if 0 <? file_count c then Some (file_count c) else dict_get d (name c).
Proof.
  revert d j. induction cats as [|c0 cats IH]; intros d j Hj Huniq; [done|].
  simpl. destruct j as [|j]; simpl in Hj.
  - injection Hj as ->.
    assert (∀ d', dict_get
              (foldl (λ d cat, if 0 <? file_count cat
                               then dict_set d (name cat) (file_count cat)
                               else d) d' cats) (name c)
            = dict_get d' (name c)) as Hrest.
    { clear IH. intros d'. revert d'.
      assert (∀ k c2, cats !! k = Some c2 → name c2 ≠ name c) as Hother.
      { intros k c2 Hk Hn. by specialize (Huniq (S k) c2 Hk Hn). }
      clear Huniq. induction cats as [|c1 cats IH]; intros d'; [done|].
      simpl. rewrite IH.
      - destruct (0 <? file_count c1); [|done].
        apply dict_get_set_ne. by apply (Hother 0).
      - intros k c2 Hk. by apply (Hother (S k)). }
    rewrite Hrest. destruct (0 <? file_count c); [|done].
    apply dict_get_set_eq.
  - rewrite (IH _ j Hj).
    + destruct (0 <? file_count c); [done|].
      destruct (0 <? file_count c0); [|done].
      apply dict_get_set_ne. intros Hn. by specialize (Huniq 0 c0 eq_refl Hn).
    + intros k c2 Hk Hn. specialize (Huniq (S k) c2 Hk Hn). lia.
Qed.

Lemma summary_count_unique (s : Summary) (cats : list FileCategory)
    (j : nat) (c : FileCategory) :
  categories s = summary_categories cats →
  cats !! j = Some c →
  (∀ k c2, cats !! k = Some c2 → name c2 = name c → k = j) →
  summary_count s (name c) = file_count c.
Proof.
  intros Hs Hj Huniq. unfold summary_count, summary_categories in *.
  rewrite Hs, (summary_fold_unique _ _ j c Hj Huniq). simpl.
  destruct (file_count c); done.
Qed.

Lemma rules_lookup (cats cats' : list FileCategory) (k : nat)
    (c : FileCategory) :
  rules <$> cats = rules <$> cats' →
  cats !! k = Some c →
  ∃ c', cats' !! k = Some c' ∧ rules c' = rules c.
Proof.
  intros H Hk. apply (f_equal (.!! k)) in H.
  rewrite !list_lookup_fmap, Hk in H. simpl in H.
  destruct (cats' !! k) as [c'|]; [|done]. injection H as H1 H2 H3 H4.
  exists c'. split; [done|]. unfold rules. congruence.
Qed.

Lemma count_at_reset (cats : list FileCategory) (j : nat) (c : FileCategory) :
  cats !! j = Some c →
  reset_counts cats !! j = Some (if enabled c then reset_count c else c).
Proof. intros H. unfold reset_counts. by rewrite list_lookup_fmap, H. Qed.

Lemma completed_move_errors (l0 l1 l2 l3 : list event) files org unc st :
  let plain ev := is_summary ev = false ∧ is_error ev = false ∧
                  is_move_error ev = false in
  Forall plain l0 → Forall plain l1 → Forall plain l3 →
  List.filter is_move_error
    (l0 ++ l1 ++ l2 ++ l3 ++ completion_events files org unc st)
  = List.filter is_move_error l2.
Proof.
  intros plain H0 H1 H3. rewrite !List.filter_app.
  rewrite (filter_move_error_nil _ H0), (filter_move_error_nil _ H1),
    (filter_move_error_nil _ H3).
  simpl. by rewrite app_nil_r.
Qed.

Lemma dry_loop_has_no_move_error os should_stop w base total files i st org
    unc st' evs r :
  dry_run w = true →
  process_loop os should_stop w base total files i st org unc
    = (st', evs, r) →
  List.filter is_move_error evs = [] ∧ st_fs st' = st_fs st.
Proof.
  intros Hdry. revert files i st org unc st' evs r.
  apply process_loop_ind'; try done.
  intros f rest i st org unc st1 evs1 org1 unc1 st2 evs2 r _ Hf _ [IHe IHfs].
  simpl. rewrite List.filter_app, IHe, IHfs, app_nil_r.
  destruct Hf; try done; congruence.
Qed.

(** C3, as the code has it.  Before the first file is processed every
    enabled category has its counter set to zero and every disabled
    category keeps the counter it had.  In a summary that follows the
    processing of files, the counter of an enabled category is the number
    of files routed to it in this run, less the moves that failed; the
    summary reports that counter under the category's name when no other
    category bears it. *)
Theorem enabled_counters_start_at_zero (os : OS) (should_stop : nat → bool)
    (w : Worker) (st : state) :
  (∀ st1, begin_processing os w st = (st1, None) →
     ∀ j c, st_cats st !! j = Some c →
            st_cats st1 !! j = Some (if enabled c then reset_count c else c)) ∧
  (∀ st' evs s,
     run os should_stop w st = (st', evs) →
     finished s ∈ evs →
     total_files s ≠ 0 →
     ∀ j c, st_cats st !! j = Some c → enabled c = true →
       let routed_here :=
         length (List.filter (routed w (st_cats st) j)
                   (scanned_files (st_fs st) (source_dir w))) in
       count_at (st_cats st') j ≤ routed_here ∧
       routed_here
         ≤ count_at (st_cats st') j + length (List.filter is_move_error evs) ∧
       (dry_run w = true → count_at (st_cats st') j = routed_here) ∧
       ((∀ k c2, st_cats st !! k = Some c2 → name c2 = name c → k = j) →
        summary_count s (name c) = count_at (st_cats st') j)).
Proof.
  split.
  - intros st1 Hb j c Hj. apply begin_processing_inv in Hb as [-> _].
    by apply count_at_reset.
  - intros st' evs s Hrun Hin Htotal j c Hj Hen routed_here.
    destruct (run_finished_inv _ _ _ _ _ _ _ Hrun Hin) as (_ & _ & Hcases).
    destruct Hcases as [(_ & -> & _)|(_ & Hcases)]; [done|].
    destruct Hcases as (st1 & st2 & evs2 & org & unc & evs3 & Hb & Hl & Hf
                        & Hs & ->).
    apply begin_processing_inv in Hb as [Hcats1 _].
    pose proof (finish_uncategorized_inv _ _ _ _ _ _ _ Hf) as [Hcats3 Hevs3].
    pose proof (process_loop_rules _ _ _ _ _ _ _ _ _ _ _ _ _ Hl) as Hrules2.
    assert (rules <$> st_cats st1 = rules <$> st_cats st) as Hrules1.
    { rewrite Hcats1. apply rules_reset_counts. }
    assert (count_at (st_cats st1) j = 0) as Hzero.
    { unfold count_at. rewrite Hcats1, (count_at_reset _ _ _ Hj), Hen. done. }
    destruct (process_loop_count _ _ _ j _ _ _ _ _ _ _ _ _ _ Hl) as [Hle Hge].
    rewrite (List.filter_ext _ _ (λ g, routed_rules w _ _ j g Hrules1))
      in Hle, Hge.
    rewrite Hzero in Hle, Hge. simpl in Hle, Hge. fold routed_here in Hle, Hge.
    rewrite Hcats3.
    assert (List.filter is_move_error
              (start_events w ++
               [log_updated (LogFound
                  (length (scanned_files (st_fs st) (source_dir w))))] ++
               evs2 ++ evs3 ++ completion_events
                 (scanned_files (st_fs st) (source_dir w)) org unc st')
            = List.filter is_move_error evs2) as ->.
    { apply (completed_move_errors (start_events w) [_] evs2 evs3).
      - apply start_events_plain.
      - by repeat constructor.
      - done. }
    split; [done|]. split; [lia|]. split.
    + intros Hdry.
      destruct (dry_loop_has_no_move_error _ _ _ _ _ _ _ _ _ _ _ _ _ Hdry Hl)
        as [Hnone _].
      rewrite Hnone in Hge. simpl in Hge. lia.
    + intros Huniq.
      assert (rules <$> st_cats st = rules <$> st_cats st2) as Hrules
        by (by rewrite Hrules2, Hrules1).
      destruct (rules_lookup _ _ j c Hrules Hj) as (c' & Hj' & Hr).
      injection Hr as Hname _ _ _.
      unfold count_at. rewrite Hj'. simpl. rewrite <-Hname.
      apply (summary_count_unique s (st_cats st2) j c').
      * rewrite Hs. simpl. by rewrite Hcats3.
      * done.
      * intros k c2 Hk Hn.
        destruct (rules_lookup _ _ k c2 (eq_sym Hrules) Hk)
          as (c3 & Hk3 & Hr3).
        injection Hr3 as Hname3 _ _ _.
        apply (Huniq k c3 Hk3). congruence.
Qed.

Lemma enabled_counters_start_at_zero_witness :
  let r := run os_locked never_stop inbox_worker inbox_state in
  let s := {| total_files := 4; organized := 2; uncategorized := 1;
              categories := [("Documents", 1); ("Images", 1)] |} in
  let routed_here :=
    length (List.filter (routed inbox_worker registry 1)
              (scanned_files inbox_tree ["inbox"])) in
  count_at (st_cats r.1) 1 ≤ routed_here ∧
  routed_here ≤ count_at (st_cats r.1) 1
                + length (List.filter is_move_error r.2) ∧
  (dry_run inbox_worker = true → count_at (st_cats r.1) 1 = routed_here) ∧
  ((∀ k c2, registry !! k = Some c2 → name c2 = name images → k = 1) →
   summary_count s (name images) = count_at (st_cats r.1) 1).
Proof.
  intros r s.
  apply (proj2 (enabled_counters_start_at_zero os_locked never_stop
                  inbox_worker inbox_state)
           r.1 r.2 s (surjective_pairing r)).
  - vm_compute. repeat constructor.
  - vm_compute. discriminate.
  - reflexivity.
  - reflexivity.
Defined.

(** A disabled category keeps the counter of an earlier run, and the
    summary reports it although no file was routed to it. *)
Lemma disabled_counter_is_not_reset :
  let st := mkState inbox_tree [stale_documents; images] in
  st_cats (begin_processing os_permissive inbox_worker st).1 !! 0
    = Some stale_documents ∧
  file_count stale_documents = 5 ∧
  length (List.filter (routed inbox_worker (st_cats st) 0)
            (scanned_files inbox_tree ["inbox"])) = 0 ∧
  last (run os_permissive never_stop inbox_worker st).2
    = Some (finished {| total_files := 4; organized := 2; uncategorized := 2;
                        categories := [("Documents", 5); ("Images", 2)] |}).
Proof. repeat split; vm_compute; reflexivity. Qed.

(** ** Dry run against real run *)

Lemma skipped_as_dry_run (w : Worker) (f : FileInfo) :
  skipped (as_dry_run w) f = skipped w f.
Proof. reflexivity. Qed.

Section simulation.
Variables (os : OS) (should_stop : nat → bool) (w : Worker).
Hypothesis real_mode : dry_run w = false.

(** A real step without a failed move does to the counters, the
    organized count and the uncategorized list what the dry step does. *)
Lemma dry_step_follows f st_r st_d org unc st_r' evs org' unc' :
  st_cats st_r = st_cats st_d →
  file_outcome os w f st_r org unc st_r' evs org' unc' →
  List.filter is_move_error evs = [] →
  ∃ evs_d,
    process_file os (as_dry_run w) f st_d org unc
    = (mkState (st_fs st_d) (st_cats st_r'), evs_d, org', unc').
Proof.
  intros Hcats Hf Hnone. unfold process_file. simpl.
  destruct Hf as [Hs | Hu | j c Hdry _ _ | j c st1 evs1 _ Hr Hc Hmv
                  | j c st1 evs1 _ _ _ Hmv].
  - unfold skipped in Hs. rewrite Hs. exists []. by rewrite Hcats; destruct st_d.
  - unfold unmatched, skipped in Hu.
    apply andb_true_iff in Hu as [Hs%negb_true_iff Hu%bool_decide_eq_true].
    rewrite Hs, <-Hcats, Hu. exists []. by rewrite Hcats; destruct st_d.
  - congruence.
  - unfold routed, skipped in Hr.
    apply andb_true_iff in Hr as [Hs%negb_true_iff Hr%bool_decide_eq_true].
    rewrite Hs, <-Hcats.
    destruct (get_category_for_extension (st_cats st_r) (extension f))
      as [[j' c']|] eqn:Ecat; [|done].
    simpl in Hr. injection Hr as ->.
    destruct (get_category_Some _ _ _ _ Ecat) as [Hc' ->].
    apply move_file_inv in Hmv
      as (? & ? & _ & [(? & _)|(_ & _ & -> & _)]); [done|].
    eexists. reflexivity.
  - apply move_file_inv in Hmv
      as (? & ? & _ & [(_ & _ & _ & e & ->)|(? & _)]); done.
Qed.

Lemma dry_loop_follows base total files i st_r st_d org unc st_r' evs r :
  st_cats st_r = st_cats st_d →
  process_loop os should_stop w base total files i st_r org unc
    = (st_r', evs, r) →
  List.filter is_move_error evs = [] →
  ∃ evs_d,
    process_loop os should_stop (as_dry_run w) base total files i st_d
      org unc
    = (mkState (st_fs st_d) (st_cats st_r'), evs_d, r).
Proof.
  intros Hcats Hl. revert st_d Hcats.
  revert files i st_r org unc st_r' evs r Hl.
  apply (process_loop_ind' os should_stop w base total
           (λ files i st_r org unc st_r' evs r,
              ∀ st_d, st_cats st_r = st_cats st_d →
                List.filter is_move_error evs = [] →
                ∃ evs_d,
                  process_loop os should_stop (as_dry_run w) base total
                    files i st_d org unc
                  = (mkState (st_fs st_d) (st_cats st_r'), evs_d, r))).
  - intros i st org unc st_d Hcats _. exists []. simpl.
    by rewrite Hcats; destruct st_d.
  - intros f rest i st org unc Hs st_d Hcats _. exists []. simpl.
    rewrite Hs. by rewrite Hcats; destruct st_d.
  - intros f rest i st org unc st1 evs1 org1 unc1 st2 evs2 r Hs Hf _ IH
      st_d Hcats Hnone.
    simpl in Hnone. rewrite List.filter_app in Hnone.
    apply app_eq_nil in Hnone as [Hnone1 Hnone2].
    destruct (dry_step_follows _ _ st_d _ _ _ _ _ _ Hcats Hf Hnone1)
      as (evs_d1 & Hd1).
    destruct (IH (mkState (st_fs st_d) (st_cats st1)) eq_refl Hnone2)
      as (evs_d2 & Hd2).
    simpl. rewrite Hs, Hd1, Hd2. simpl. eexists. reflexivity.
Qed.

End simulation.

Lemma dry_run_leaves_tree (os : OS) (should_stop : nat → bool) (w : Worker)
    (st st' : state) (evs : list event) :
  dry_run w = true →
  run os should_stop w st = (st', evs) →
  st_fs st' = st_fs st.
Proof.
  intros Hdry Hrun.
  apply run_cases in Hrun as (evs0 & x & Hcase & _).
  assert (∀ st1 x1, begin_processing os w st = (st1, x1) →
                    x1 = None ∧ st_fs st1 = st_fs st) as Hbegin.
  { unfold begin_processing. rewrite Hdry. by intros st1 x1 [= <- <-]. }
  assert (∀ unc st2 st3 evs3 x3,
            finish_uncategorized os w unc st2 = (st3, evs3, x3) →
            x3 = None ∧ st3 = st2) as Hfinish.
  { unfold finish_uncategorized. rewrite Hdry.
    by intros unc st2 st3 evs3 x3 [= <- <- <-]. }
  destruct Hcase as
    [ Hscan | e Hscan | Hscan | fs0 st1 e Hscan Hne Hb
    | fs0 st1 st2 evs2 Hscan Hne Hb Hl
    | fs0 st1 st2 evs2 org unc st3 evs3 e Hscan Hne Hb Hl Hf
    | fs0 st1 st2 evs2 org unc st3 evs3 Hscan Hne Hb Hl Hf ]; try done.
  - by apply Hbegin in Hb as [? _].
  - apply Hbegin in Hb as [_ <-].
    by apply (dry_loop_has_no_move_error _ _ _ _ _ _ _ _ _ _ _ _ _ Hdry) in Hl
      as [_ ->].
  - by apply Hfinish in Hf as [? _].
  - apply Hbegin in Hb as [_ <-]. apply Hfinish in Hf as [_ ->].
    by apply (dry_loop_has_no_move_error _ _ _ _ _ _ _ _ _ _ _ _ _ Hdry) in Hl
      as [_ ->].
Qed.

Lemma organize_files_found (os : OS) (should_stop : nat → bool) (w : Worker)
    (st : state) (files : list FileInfo) :
  scan_loop os should_stop (st_fs st) (rglob (st_fs st) (source_dir w)) 0 []
    = Scanned files →
  files ≠ [] →
  organize_files os should_stop w st
  = let found := [log_updated (LogFound (length files))] in
    match begin_processing os w st with
    | (st1, Some e) => (st1, start_events w ++ found, Some e)
    | (st1, None) =>
        match process_loop os should_stop w
                (length (rglob (st_fs st) (source_dir w))) (length files)
                files 0 st1 0 [] with
        | (st2, evs2, Stopped) => (st2, start_events w ++ found ++ evs2, None)
        | (st2, evs2, Completed org unc) =>
            match finish_uncategorized os w unc st2 with
            | (st3, evs3, Some e) =>
                (st3, start_events w ++ found ++ evs2 ++ evs3, Some e)
            | (st3, evs3, None) =>
                (st3,
                 start_events w ++ found ++ evs2 ++ evs3 ++
                   completion_events files org unc st3,
                 None)
            end
        end
    end.
Proof.
  intros Hscan Hne. unfold organize_files. rewrite Hscan.
  by destruct files.
Qed.

(** C4. A dry run changes nothing in the tree.  When a real run ends with
    a summary and none of its moves failed, the dry run of the same worker
    on the same tree and registry ends with the very same summary (so the
    same per-category counts) and leaves the counters as the real run
    does. *)
Theorem dry_run_counts_like_real_run (os : OS) (should_stop : nat → bool)
    (w : Worker) (st : state) :
  (dry_run w = true →
   ∀ st' evs, run os should_stop w st = (st', evs) → st_fs st' = st_fs st) ∧
  (dry_run w = false →
   ∀ st_r evs_r s,
     run os should_stop w st = (st_r, evs_r) →
     finished s ∈ evs_r →
     List.filter is_move_error evs_r = [] →
     ∃ st_d evs_d,
       run os should_stop (as_dry_run w) st = (st_d, evs_d) ∧
       finished s ∈ evs_d ∧
       st_cats st_d = st_cats st_r ∧
       st_fs st_d = st_fs st).
Proof.
  split.
  { intros Hdry st' evs. by apply dry_run_leaves_tree. }
  intros Hreal st_r evs_r s Hrun Hin Hnone.
  destruct (run_finished_inv _ _ _ _ _ _ _ Hrun Hin) as (Hscan & _ & Hcases).
  destruct Hcases as [(Hnil & -> & -> & _)|(Hne & Hcases)].
  - eexists _, _. split.
    + unfold run, organize_files. simpl source_dir. rewrite Hscan, Hnil.
      reflexivity.
    + split; [|done]. simpl. by repeat constructor.
  - destruct Hcases as (st1 & st2 & evs2 & org & unc & evs3 & Hb & Hl & Hf
                        & Hs & Hevs).
    apply begin_processing_inv in Hb as [Hcats1 _].
    pose proof (finish_uncategorized_inv _ _ _ _ _ _ _ Hf) as [Hcats3 Hevs3].
    assert (List.filter is_move_error evs2 = []) as Hnone2.
    { rewrite Hevs in Hnone.
      rewrite (completed_move_errors (start_events w) [_] evs2 evs3)
        in Hnone; [done|apply start_events_plain|by repeat constructor|done]. }
    destruct (dry_loop_follows os should_stop w Hreal _ _ _ _ st1
                (mkState (st_fs st) (reset_counts (st_cats st)))
                _ _ _ _ _ Hcats1 Hl Hnone2) as (evs_d2 & Hld).
    eexists _, _. split.
    + unfold run.
      rewrite (organize_files_found os should_stop (as_dry_run w) st _
                 Hscan Hne).
      change (source_dir (as_dry_run w)) with (source_dir w).
      change (begin_processing os (as_dry_run w) st)
        with (mkState (st_fs st) (reset_counts (st_cats st)), @None exn).
      cbv zeta. cbv iota. rewrite Hld. reflexivity.
    + simpl. split; [|by rewrite Hcats3].
      rewrite Hs, Hcats3. unfold completion_events.
      do 5 apply list_elem_of_further. apply elem_of_app. right.
      by repeat constructor.
Qed.

Lemma dry_run_counts_like_real_run_witness :
  let r := run os_permissive never_stop inbox_worker inbox_state in
  ∃ st_d evs_d,
    run os_permissive never_stop (as_dry_run inbox_worker) inbox_state
      = (st_d, evs_d) ∧
    finished inbox_summary ∈ evs_d ∧
    st_cats st_d = st_cats r.1 ∧
    st_fs st_d = inbox_tree.
Proof.
  intros r.
  apply (proj2 (dry_run_counts_like_real_run os_permissive never_stop
                  inbox_worker inbox_state)
           eq_refl r.1 r.2 inbox_summary (surjective_pairing r)).
  - vm_compute. repeat constructor.
  - vm_compute. reflexivity.
Defined.

Example dry_run_of_inbox :
  last (run os_permissive never_stop (as_dry_run inbox_worker) inbox_state).2
  = Some (finished inbox_summary).
Proof. vm_compute. reflexivity. Qed.

(** ** What a run changes in the tree *)










Section tree_changes.
Variables (os : OS) (should_stop : nat → bool) (w : Worker).

Local Abbreviation changes := (tree_changes (dest_dir w)).










End tree_changes.

(** ** Two runs in succession *)

Lemma rglob_exists (fs : FS) (root p : Path) :
  p ∈ rglob fs root → is_Some (fs !! p) ∧ in_parents root p = true.
Proof.
  unfold rglob. intros H%list_elem_of_In.
  apply List.filter_In in H as [H%list_elem_of_In Hp].
  apply andb_true_iff in Hp as [Hp _]. split; [|done].
  apply list_elem_of_fmap in H as ([q n] & -> & H).
  apply elem_of_map_to_list in H. by exists n.
Qed.

Lemma scanned_files_path (fs : FS) (source : Path) (f : FileInfo) :
  f ∈ scanned_files fs source →
  is_file fs (path f) = true ∧ in_parents source (path f) = true.
Proof.
  unfold scanned_files. intros (p & -> & H)%list_elem_of_fmap.
  apply list_elem_of_In, List.filter_In in H as [H%list_elem_of_In Hfile].
  apply rglob_exists in H as [_ H]. by split.
Qed.



(** The second run on the sorted inbox meets the four files again, passes
    over all of them and reports nothing organized. *)
Example second_run_of_inbox :
  let r1 := run os_permissive never_stop inbox_worker inbox_state in
  last (run os_permissive never_stop inbox_worker r1.1).2
  = Some (finished {| total_files := 4; organized := 0; uncategorized := 0;
                      categories := [] |}).
Proof. vm_compute. reflexivity. Qed.

(** * Further properties *)

(** ** [rfind], suffix and stem *)

Lemma rfind_app_found (ch : ascii) (a b : string) :
  rfind ch b = None →
  rfind ch (a +:+ String ch b) = Some (String.length a).
Proof.
  intros Hb. induction a as [|c a IH]; simpl.
  - rewrite Hb. by rewrite decide_True.
  - by rewrite IH.
Qed.

Lemma rfind_Some (ch : ascii) (s : string) (i : nat) :
  rfind ch s = Some i →
  ∃ a b, s = a +:+ String ch b ∧ String.length a = i ∧ rfind ch b = None.
Proof.
  revert i. induction s as [|c s IH]; intros i; simpl; [done|].
  destruct (rfind ch s) as [k|] eqn:E.
  - intros [= <-]. destruct (IH k eq_refl) as (a & b & -> & <- & Hb).
    by exists (String c a), b.
  - destruct (decide (c = ch)) as [->|]; [|done].
    intros [= <-]. by exists EmptyString, s.
Qed.

Lemma rfind_app_None (ch : ascii) (a b : string) :
  rfind ch (a +:+ b) = None ↔ rfind ch a = None ∧ rfind ch b = None.
Proof.
  induction a as [|c a IH]; simpl; [tauto|].
  destruct (rfind ch (a +:+ b)) as [k|] eqn:E.
  - split; [done|]. intros [Ha Hb].
    destruct (rfind ch a); [done|].
    destruct (decide (c = ch)); [done|].
    assert (Some k = None) by (by apply IH). done.
  - destruct (proj1 IH eq_refl) as [-> ->].
    destruct (decide (c = ch)); [|done]. split; [done|]. by intros [? _].
Qed.

Lemma substring_app_l (a b : string) :
  substring 0 (String.length a) (a +:+ b) = a.
Proof. induction a as [|c a IH]; simpl; [by destruct b|]. by rewrite IH. Qed.

Lemma substring_all (b : string) : substring 0 (String.length b) b = b.
Proof. induction b as [|c b IH]; simpl; [done|]. by rewrite IH. Qed.

Lemma substring_app_r (a b : string) :
  substring (String.length a) (String.length b) (a +:+ b) = b.
Proof.
  induction a as [|c a IH]; simpl; [apply substring_all|done].
Qed.

(** The shape of a name that has a suffix. *)
Lemma suffix_index_Some (nm : string) (i : nat) :
  suffix_index nm = Some i ↔
  ∃ a b, nm = a +:+ String "." b ∧ String.length a = i ∧
         a ≠ EmptyString ∧ b ≠ EmptyString ∧ rfind "." b = None.
Proof.
  unfold suffix_index. split.
  - destruct (rfind "." nm) as [k|] eqn:E; [|done].
    destruct (_ && _) eqn:Hc; [|done]. intros [= <-].
    apply andb_true_iff in Hc as [H0%Nat.ltb_lt H1%Nat.ltb_lt].
    apply rfind_Some in E as (a & b & -> & Hk & Hb).
    exists a, b. split; [done|]. split; [done|].
    rewrite string_length_app in H1. simpl in H1.
    split; [|split; [|done]].
    + intros ->. simpl in Hk. lia.
    + intros ->. simpl in H1. lia.
  - intros (a & b & -> & <- & Ha & Hb & Hnone).
    rewrite (rfind_app_found _ _ _ Hnone).
    rewrite string_length_app.
    assert ((0 <? String.length a)
            && (String.length a
                <? String.length a + String.length (String "." b) - 1)
            = true) as ->; [|done].
    apply andb_true_iff. split; apply Nat.ltb_lt.
    + destruct a; [done|]. simpl. lia.
    + destruct b; [done|]. simpl. lia.
Qed.

Lemma name_parts_Some (a b : string) :
  a ≠ EmptyString → b ≠ EmptyString → rfind "." b = None →
  name_stem (a +:+ String "." b) = a ∧
  name_suffix (a +:+ String "." b) = String "." b.
Proof.
  intros Ha Hb Hnone.
  assert (suffix_index (a +:+ String "." b) = Some (String.length a)) as E.
  { apply suffix_index_Some. by exists a, b. }
  unfold name_stem, name_suffix. rewrite E. split.
  - apply substring_app_l.
  - rewrite string_length_app.
    replace (String.length a + String.length (String "." b) - String.length a)
      with (String.length (String "." b)) by lia.
    apply substring_app_r.
Qed.

Lemma name_parts (nm : string) :
  (name_suffix nm = EmptyString ∧ name_stem nm = nm) ∨
  (∃ a b, nm = a +:+ String "." b ∧ a ≠ EmptyString ∧ b ≠ EmptyString ∧
          rfind "." b = None ∧
          name_stem nm = a ∧ name_suffix nm = String "." b).
Proof.
  destruct (suffix_index nm) as [i|] eqn:E.
  - right. apply suffix_index_Some in E as (a & b & -> & _ & Ha & Hb & Hnone).
    exists a, b. destruct (name_parts_Some a b Ha Hb Hnone) as [-> ->].
    done.
  - left. unfold name_suffix, name_stem. by rewrite E.
Qed.

Lemma string_app_assoc (a b c : string) : (a +:+ b) +:+ c = a +:+ (b +:+ c).
Proof.
  induction a as [|x a IH]; [done|].
  change (String x ((a +:+ b) +:+ c) = String x (a +:+ (b +:+ c))).
  by rewrite IH.
Qed.

Lemma string_app_nil_r (a : string) : a +:+ EmptyString = a.
Proof.
  induction a as [|x a IH]; [done|].
  change (String x (a +:+ EmptyString) = String x a). by rewrite IH.
Qed.

Lemma path_name_joinpath (folder : Path) (x : string) :
  path_name (folder </> x) = x.
Proof. unfold path_name, joinpath. by rewrite last_snoc. Qed.

Lemma ascii_lower_dot (c : ascii) : ascii_lower c = "."%char ↔ c = "."%char.
Proof.
  split; [|by intros ->].
  destruct c as [[] [] [] [] [] [] [] []]; vm_compute; congruence.
Qed.

Lemma rfind_dot_lower (s : string) :
  rfind "." (lower s) = None ↔ rfind "." s = None.
Proof.
  induction s as [|c s IH]; simpl; [done|].
  destruct (rfind "." (lower s)) as [i|], (rfind "." s) as [k|].
  - split; discriminate.
  - discriminate (proj2 IH eq_refl).
  - discriminate (proj1 IH eq_refl).
  - destruct (decide (ascii_lower c = "."%char)) as [H|H],
             (decide (c = "."%char)) as [H'|H']; try done.
    + destruct H'. by apply ascii_lower_dot.
    + destruct H. by apply ascii_lower_dot.
Qed.

Lemma lower_app (a b : string) : lower (a +:+ b) = lower a +:+ lower b.
Proof. induction a as [|c a IH]; simpl; [done|]. by rewrite IH. Qed.

Lemma suffix_shaped_name_suffix (nm : string) : suffix_shaped (name_suffix nm).
Proof.
  destruct (name_parts nm) as [[-> _]|(a & b & _ & _ & Hb & Hnone & _ & ->)].
  - by left.
  - right. by exists b.
Qed.

Lemma suffix_shaped_lower (e : string) :
  suffix_shaped e → suffix_shaped (lower e).
Proof.
  intros [->|(b & -> & Hb & Hnone)]; [by left|]. right.
  exists (lower b). split; [done|]. split.
  - by destruct b.
  - by apply rfind_dot_lower.
Qed.

(** X1. The suffix and the stem that [FileInfo] and the renaming loop take
    from a name put together give the name back; the extension kept by
    [FileInfo] is lower-case and is either empty or a dot followed by a
    non-empty part without dot. *)
Theorem file_info_extension_shape (fs : FS) (p : Path) :
  path_stem p +:+ path_suffix p = path_name p ∧
  lower (extension (new_FileInfo fs p)) = extension (new_FileInfo fs p) ∧
  suffix_shaped (extension (new_FileInfo fs p)).
Proof.
  split; [|split].
  - unfold path_stem, path_suffix.
    destruct (name_parts (path_name p))
      as [[-> ->]|(a & b & E & _ & _ & _ & -> & ->)]; [|done].
    apply string_app_nil_r.
  - simpl. apply lower_idemp.
  - simpl. apply suffix_shaped_lower, suffix_shaped_name_suffix.
Qed.

(** X2. A category matches a file only through a declared extension of
    the shape of a suffix: declared extensions such as [txt] (no dot),
    [.] or [.tar.gz] never match any file. *)
Theorem only_suffix_shaped_extensions_match (nm : string)
    (exts : list string) (folder : string) (fs : FS) (p : Path) :
  Forall (λ e, ¬ suffix_shaped (lower e)) exts →
  matches_extension (new_FileCategory nm exts folder)
    (extension (new_FileInfo fs p)) = false.
Proof.
  intros Hall. unfold matches_extension. apply bool_decide_eq_false.
  simpl. rewrite lower_idemp. intros Hin.
  apply list_elem_of_fmap in Hin as (e & He & Hin).
  rewrite Forall_forall in Hall. apply (Hall e Hin). rewrite <-He.
  apply suffix_shaped_lower, suffix_shaped_name_suffix.
Qed.

Lemma only_suffix_shaped_extensions_match_witness :
  matches_extension (new_FileCategory "Text" ["txt"; ".tar.gz"; "."] "Text")
    (extension (new_FileInfo ∅ ["inbox"; "backup.tar.gz"])) = false.
Proof.
  apply only_suffix_shaped_extensions_match.
  repeat constructor; intros [H|(b & H & Hb & Hnone)];
    try discriminate H; injection H as <-; done.
Defined.

(** X3. Renaming on collision keeps the suffix of a file that has one:
    the destination chosen for a file whose name has a suffix has the same
    suffix, so a file read back from there has the same extension. *)
Theorem renamed_file_keeps_its_extension (fs fs0 fs1 : FS) (folder p d : Path) :
  path_suffix p ≠ EmptyString →
  free_destination fs folder (new_FileInfo fs0 p) = Some d →
  path_suffix d = path_suffix p ∧
  extension (new_FileInfo fs1 d) = extension (new_FileInfo fs0 p).
Proof.
  intros Hsuffix Hd.
  assert (path_suffix d = path_suffix p) as E; [|by simpl; rewrite E].
  apply free_destination_spec in Hd as [_ [[_ ->]|(_ & n & _ & -> & _)]];
    unfold path_suffix in *; simpl; unfold candidate;
    rewrite path_name_joinpath; [done|].
  unfold path_stem.
  destruct (name_parts (path_name p))
    as [[E _]|(a & b & _ & Ha & Hb & Hnone & -> & ->)]; [done|].
  unfold new_name. rewrite <-!string_app_assoc.
  apply name_parts_Some; [|done..]. by destruct a.
Qed.

Lemma renamed_file_keeps_its_extension_witness :
  path_suffix ["sorted"; "Documents"; "report_1.pdf"]
    = path_suffix ["inbox"; "report.pdf"] ∧
  extension (new_FileInfo ∅ ["sorted"; "Documents"; "report_1.pdf"])
    = extension (new_FileInfo reports_tree ["inbox"; "report.pdf"]).
Proof.
  apply (renamed_file_keeps_its_extension reports_tree reports_tree ∅
           ["sorted"; "Documents"]).
  - vm_compute. discriminate.
  - vm_compute. reflexivity.
Defined.

(** Without a suffix the renamed name may get one: [notes.] becomes
    [notes._1], whose suffix is [._1]. *)
Example renamed_name_may_get_a_suffix :
  name_suffix "notes." = EmptyString ∧
  name_suffix (new_name (name_stem "notes.") 1 (name_suffix "notes.")) = "._1".
Proof. split; reflexivity. Qed.

(** ** Editing the registry *)

Lemma find_category_app (cats : list FileCategory) (c : FileCategory)
    (ext : string) (k : nat) :
  find_category (cats ++ [c]) ext k
  = match find_category cats ext k with
    | Some r => Some r
    | None => if enabled c && matches_extension c ext
              then Some (k + length cats, c) else None
    end.
Proof.
  revert k. induction cats as [|c0 cats IH]; intros k; simpl.
  - rewrite Nat.add_0_r. by destruct (enabled c && _).
  - destruct (enabled c0 && _); [done|]. rewrite IH.
    by replace (S k + length cats) with (k + S (length cats)) by lia.
Qed.

(** X4. Adding a custom category never changes the category of an
    extension that already had one: the new category is put last, and it
    takes an extension only when no earlier category claims it. *)
Theorem adding_a_category_keeps_matches
    (name_text extensions_text folder_text : string)
    (cats : list FileCategory) (ext : string) :
  let cats' :=
    (add_custom_category name_text extensions_text folder_text cats).1 in
  (∀ r, get_category_for_extension cats ext = Some r →
        get_category_for_extension cats' ext = Some r) ∧
  (∀ i c, get_category_for_extension cats' ext = Some (i, c) →
          get_category_for_extension cats ext = Some (i, c) ∨
          (get_category_for_extension cats ext = None ∧ i = length cats)).
Proof.
  unfold add_custom_category, get_category_for_extension.
  destruct (_ && _); simpl; [|by split; [|left]].
  rewrite find_category_app.
  destruct (find_category cats ext 0) as [r|].
  - split; [done|]. intros i c [= ->]. by left.
  - split; [done|]. intros i c.
    destruct (enabled _ && _); [|done]. intros [= <- <-]. by right.
Qed.

Lemma adding_a_category_keeps_matches_witness :
  get_category_for_extension
    (add_custom_category "Scans" ".pdf, .tif" "Scans" registry).1 ".pdf"
  = Some (0, documents).
Proof.
  apply (proj1 (adding_a_category_keeps_matches "Scans" ".pdf, .tif" "Scans"
                  registry ".pdf")).
  reflexivity.
Defined.

(** *** [strip], [split] and the parsed extensions *)

Lemma is_whitespace_lower (c : ascii) :
  is_whitespace (ascii_lower c) = is_whitespace c.
Proof. destruct c as [[] [] [] [] [] [] [] []]; reflexivity. Qed.

Lemma ascii_lower_comma (c : ascii) : ascii_lower c = ","%char ↔ c = ","%char.
Proof.
  split; [|by intros ->].
  destruct c as [[] [] [] [] [] [] [] []]; vm_compute; congruence.
Qed.

Lemma lower_nil (s : string) : lower s = EmptyString ↔ s = EmptyString.
Proof. by destruct s. Qed.

Lemma lstrip_lower (s : string) : lstrip (lower s) = lower (lstrip s).
Proof.
  induction s as [|c s IH]; simpl; [done|].
  rewrite is_whitespace_lower. by destruct (is_whitespace c).
Qed.

Lemma rstrip_lower (s : string) : rstrip (lower s) = lower (rstrip s).
Proof.
  induction s as [|c s IH]; simpl; [done|].
  rewrite IH, is_whitespace_lower.
  destruct (rstrip s) as [|c' r]; simpl; [|done].
  by destruct (is_whitespace c).
Qed.

Lemma strip_lower (s : string) : strip (lower s) = lower (strip s).
Proof. unfold strip. by rewrite rstrip_lower, lstrip_lower. Qed.

Lemma lstrip_idemp (s : string) : lstrip (lstrip s) = lstrip s.
Proof.
  induction s as [|c s IH]; simpl; [done|].
  destruct (is_whitespace c) eqn:E; [done|]. simpl. by rewrite E.
Qed.

Lemma rstrip_idemp (s : string) : rstrip (rstrip s) = rstrip s.
Proof.
  induction s as [|c s IH]; simpl; [done|].
  destruct (rstrip s) as [|c' r] eqn:E.
  - destruct (is_whitespace c) eqn:Ec; simpl; [done|]. by rewrite Ec.
  - simpl in *. by rewrite IH.
Qed.

(** Stripping on the left keeps a string stripped on the right. *)
Lemma rstrip_lstrip (t : string) : rstrip t = t → rstrip (lstrip t) = lstrip t.
Proof.
  induction t as [|c t IH]; simpl; [done|].
  destruct (is_whitespace c) eqn:Ec.
  - destruct (rstrip t) as [|c' r] eqn:E; [done|].
    intros [= H]. by apply IH.
  - intros H. simpl. by rewrite Ec.
Qed.

Lemma strip_idemp (s : string) : strip (strip s) = strip s.
Proof.
  unfold strip.
  rewrite (rstrip_lstrip (rstrip s)) by apply rstrip_idemp.
  apply lstrip_idemp.
Qed.

Lemma rfind_lstrip (ch : ascii) (s : string) :
  rfind ch s = None → rfind ch (lstrip s) = None.
Proof.
  induction s as [|c s IH]; simpl; [done|].
  destruct (is_whitespace c); [|done].
  destruct (rfind ch s); [done|]. intros _. by apply IH.
Qed.

Lemma rfind_rstrip (ch : ascii) (s : string) :
  rfind ch s = None → rfind ch (rstrip s) = None.
Proof.
  induction s as [|c s IH]; simpl; [done|].
  destruct (rfind ch s) as [i|] eqn:E; [done|].
  destruct (decide (c = ch)) as [->|Hc]; [done|]. intros _.
  specialize (IH eq_refl).
  destruct (rstrip s) as [|c' r]; simpl.
  - destruct (is_whitespace c); simpl; [done|]. by rewrite decide_False.
  - simpl in IH. rewrite IH. by rewrite decide_False.
Qed.

Lemma rfind_comma_lower (s : string) :
  rfind "," s = None → rfind "," (lower s) = None.
Proof.
  induction s as [|c s IH]; simpl; [done|].
  destruct (rfind "," s); [done|]. rewrite IH by done.
  destruct (decide (c = ","%char)) as [|Hc]; [done|]. intros _.
  rewrite decide_False; [done|]. by rewrite ascii_lower_comma.
Qed.

Lemma split_pieces (sep : ascii) (s : string) :
  split sep s ≠ [] ∧ Forall (λ piece, rfind sep piece = None) (split sep s).
Proof.
  induction s as [|c s [IHne IH]]; simpl.
  - split; [done|]. by repeat constructor.
  - destruct (decide (c = sep)) as [->|Hc].
    + split; [done|]. by constructor.
    + destruct (split sep s) as [|piece pieces]; [done|].
      split; [done|]. apply Forall_cons in IH as [Hp Hps].
      constructor; [|done]. simpl. rewrite Hp. by rewrite decide_False.
Qed.

(** What line 630 yields: each token is non-empty, stripped and free of
    commas. *)
Lemma parse_extensions_tokens (text : string) :
  Forall (λ e, e ≠ EmptyString ∧ strip e = e ∧ rfind "," e = None)
         (parse_extensions text).
Proof.
  unfold parse_extensions. apply Forall_forall. intros e He.
  apply list_elem_of_In, List.filter_In in He as [He Hne].
  apply list_elem_of_In, list_elem_of_fmap in He as (piece & -> & Hpiece).
  split; [by destruct (strip piece)|]. split; [apply strip_idemp|].
  destruct (split_pieces "," text) as [_ Hall].
  rewrite Forall_forall in Hall. unfold strip.
  by apply rfind_lstrip, rfind_rstrip, Hall.
Qed.

(** The two outcomes of [add_custom_category]. *)
Lemma add_custom_category_inv
    (name_text extensions_text folder_text : string)
    (cats : list FileCategory) :
  match add_custom_category name_text extensions_text folder_text cats with
  | (cats', false) =>
      cats' = cats ∧
      (strip name_text = EmptyString ∨ strip folder_text = EmptyString ∨
       parse_extensions extensions_text = [])
  | (cats', true) =>
      ∃ c, cats' = cats ++ [c] ∧
           enabled c = true ∧ file_count c = 0 ∧
           name c = strip name_text ∧ name c ≠ EmptyString ∧
           folder_name c = strip folder_text ∧
           folder_name c ≠ EmptyString ∧
           extensions c ≠ [] ∧
           Forall (λ e, e ≠ EmptyString ∧ lower e = e ∧ strip e = e ∧
                        rfind "," e = None) (extensions c)
  end.
Proof.
  unfold add_custom_category.
  destruct (strip name_text) as [|c1 nm] eqn:En; simpl;
    [by split; [|left]|].
  destruct (parse_extensions extensions_text) as [|e exts] eqn:Ee; simpl;
    [by split; [|right; right]|].
  destruct (strip folder_text) as [|c2 folder] eqn:Ef; simpl;
    [by split; [|right; left]|].
  eexists. split; [done|]. simpl. do 7 (split; [done|]).
  pose proof (parse_extensions_tokens extensions_text) as Hall.
  rewrite Ee in Hall.
  change (Forall (λ e0, e0 ≠ EmptyString ∧ lower e0 = e0 ∧ strip e0 = e0 ∧
                        rfind "," e0 = None) (lower <$> e :: exts)).
  apply Forall_fmap. eapply Forall_impl; [exact Hall|].
  intros t (Hne & Hstrip & Hcomma). simpl.
  split; [by rewrite lower_nil|]. split; [apply lower_idemp|].
  split; [by rewrite strip_lower, Hstrip|]. by apply rfind_comma_lower.
Qed.


Example add_custom_category_accepts :
  add_custom_category "  Logs " " .LOG , ,.Journal,txt " "Logs" [documents]
  = ([documents;
      {| name := "Logs"; extensions := [".log"; ".journal"; "txt"];
         folder_name := "Logs"; file_count := 0; enabled := true |}], true).
Proof. reflexivity. Qed.

Example add_custom_category_rejects :
  add_custom_category "Logs" " , ,, " "Logs" [documents] = ([documents], false).
Proof. reflexivity. Qed.

(** *** Switching a category off *)

Lemma lookup_on_enabled_changed (cats : list FileCategory) (j k : nat)
    (b : bool) :
  on_enabled_changed j b cats !! k
  = if decide (j = k) then set_enabled b <$> cats !! j else cats !! k.
Proof. apply list_lookup_alter. Qed.

Lemma not_claims_disabled (ext : string) (c : FileCategory) :
  ¬ claims ext (set_enabled false c).
Proof. by intros [? _]. Qed.

(** X6. Switching a category off takes it out of the matching and leaves
    every other match as it was: no extension is classified to it any
    more, an extension classified to another category stays there, and an
    extension that only it claims becomes unmatched.  Switching it on
    again gives the registry back. *)
Theorem switching_a_category_off (cats : list FileCategory) (j : nat)
    (ext : string) :
  let cats' := on_enabled_changed j false cats in
  (∀ i c, get_category_for_extension cats' ext = Some (i, c) →
          i ≠ j ∧ cats !! i = Some c) ∧
  (∀ i c, i ≠ j →
          get_category_for_extension cats ext = Some (i, c) →
          get_category_for_extension cats' ext = Some (i, c)) ∧
  ((∀ k c', k ≠ j → cats !! k = Some c' → ¬ claims ext c') →
   get_category_for_extension cats' ext = None) ∧
  (∀ c, cats !! j = Some c → enabled c = true →
        on_enabled_changed j true cats' = cats).
Proof.
  intros cats'. unfold get_category_for_extension.
  split; [|split; [|split]].
  - intros i c H.
    apply find_category_Some in H as (n & -> & Hn & Hc & _). simpl.
    unfold cats' in Hn. rewrite lookup_on_enabled_changed in Hn.
    destruct (decide (j = n)) as [->|Hne]; [|done].
    destruct (cats !! n) as [c0|]; [|done]. injection Hn as <-.
    by destruct (not_claims_disabled ext c0).
  - intros i c Hij H.
    apply find_category_Some in H as (n & -> & Hn & Hc & Hfirst).
    simpl in Hij. apply find_category_Some. exists n.
    split; [done|]. split; [|split; [done|]].
    + unfold cats'. rewrite lookup_on_enabled_changed.
      by rewrite decide_False.
    + intros m c' Hm Hc'. unfold cats' in Hc'.
      rewrite lookup_on_enabled_changed in Hc'.
      destruct (decide (j = m)) as [->|Hne]; [|by eapply Hfirst].
      destruct (cats !! m) as [c0|]; [|done]. injection Hc' as <-.
      apply not_claims_disabled.
  - intros Hothers. apply find_category_None. intros m c' Hc'.
    unfold cats' in Hc'. rewrite lookup_on_enabled_changed in Hc'.
    destruct (decide (j = m)) as [->|Hne]; [|by eapply Hothers].
    destruct (cats !! m) as [c0|]; [|done]. injection Hc' as <-.
    apply not_claims_disabled.
  - intros c Hj Hen. apply list_eq. intros k.
    unfold cats'. rewrite !lookup_on_enabled_changed.
    destruct (decide (j = k)) as [->|]; [|done].
    rewrite decide_True, Hj by done. simpl. f_equal.
    destruct c. simpl in Hen. by subst.
Qed.

Lemma switching_a_category_off_witness :
  get_category_for_extension (on_enabled_changed 0 false registry) ".jpg"
  = Some (1, images).
Proof.
  apply (proj1 (proj2 (switching_a_category_off registry 0 ".jpg"))).
  - done.
  - reflexivity.
Defined.

(** *** Registries that declare each extension once *)

Lemma declared_once_lookup (cats : list FileCategory) (m j : nat)
    (a b : FileCategory) (x : string) :
  declared_once cats →
  cats !! m = Some a → cats !! j = Some b →
  x ∈ extensions a → x ∈ extensions b → m = j.
Proof.
  unfold declared_once. revert m j.
  induction cats as [|c cats IH]; intros m j Hnd Hm Hj Ha Hb; [done|].
  simpl in Hnd. apply NoDup_app in Hnd as (_ & Hdisj & Hnd).
  assert (∀ k d, cats !! k = Some d → x ∈ extensions d →
                 x ∈ mjoin (extensions <$> cats)) as Hjoin.
  { intros k d Hk Hd. apply list_elem_of_join. exists (extensions d).
    split; [done|]. apply list_elem_of_fmap. exists d. split; [done|].
    by eapply list_elem_of_lookup_2. }
  destruct m as [|m], j as [|j]; simpl in Hm, Hj.
  - done.
  - injection Hm as ->. destruct (Hdisj x Ha). by eapply Hjoin.
  - injection Hj as ->. destruct (Hdisj x Hb). by eapply Hjoin.
  - f_equal. by eapply IH.
Qed.

Lemma extensions_on_enabled_changed (cats : list FileCategory) (j : nat)
    (b : bool) :
  extensions <$> on_enabled_changed j b cats = extensions <$> cats.
Proof.
  unfold on_enabled_changed.
  rewrite (list_fmap_alter extensions (set_enabled b) id).
  - by apply list_alter_id.
  - by apply Forall_forall.
Qed.

(** X7. In a registry that declares no extension twice, the order of the
    categories does not matter: an extension is classified to a category
    exactly when that category is enabled and declares it.  Switching one
    of its categories off or on keeps the registry such, and an extension
    of a category switched off becomes unmatched. *)
Theorem declared_once_classification (cats : list FileCategory) :
  declared_once cats →
  (∀ ext j c,
     get_category_for_extension cats ext = Some (j, c) ↔
     cats !! j = Some c ∧ enabled c = true ∧ lower ext ∈ extensions c) ∧
  (∀ j b, declared_once (on_enabled_changed j b cats)) ∧
  (∀ ext j c,
     cats !! j = Some c → lower ext ∈ extensions c →
     get_category_for_extension (on_enabled_changed j false cats) ext = None).
Proof.
  intros Hnd. split; [|split].
  - intros ext j c. unfold get_category_for_extension.
    rewrite find_category_Some. split.
    + intros (n & -> & Hn & [He Hx] & _). done.
    + intros (Hj & He & Hx). exists j. split; [done|]. split; [done|].
      split; [done|]. intros m c' Hm Hc' [_ Hx'].
      assert (m = j) by (by eapply declared_once_lookup). lia.
  - intros j b. unfold declared_once.
    by rewrite extensions_on_enabled_changed.
  - intros ext j c Hj Hx. unfold get_category_for_extension.
    apply find_category_None. intros m c' Hc'.
    rewrite lookup_on_enabled_changed in Hc'.
    destruct (decide (j = m)) as [->|Hne].
    + rewrite Hj in Hc'. injection Hc' as <-. apply not_claims_disabled.
    + intros [_ Hx']. apply Hne. by eapply declared_once_lookup.
Qed.

(** The built-in categories declare no extension twice. *)
Lemma default_categories_declared_once : declared_once init_default_categories.
Proof. apply (bool_decide_unpack _). vm_compute. reflexivity. Qed.

Lemma declared_once_classification_witness :
  (∀ ext j c,
     get_category_for_extension init_default_categories ext = Some (j, c) ↔
     init_default_categories !! j = Some c ∧ enabled c = true ∧
     lower ext ∈ extensions c) ∧
  (∀ j b, declared_once (on_enabled_changed j b init_default_categories)) ∧
  (∀ ext j c,
     init_default_categories !! j = Some c → lower ext ∈ extensions c →
     get_category_for_extension
       (on_enabled_changed j false init_default_categories) ext = None).
Proof.
  apply declared_once_classification.
  apply (bool_decide_unpack _). vm_compute. reflexivity.
Defined.

(** X8. No category ever declares the empty extension: the built-in ones
    do not, [add_custom_category] drops blank tokens and switching a
    category on or off does not touch the extensions.  So a file whose name
    has no suffix is matched by no category of such a registry. *)
Theorem no_empty_extension_is_declared :
  declares_no_empty init_default_categories ∧
  (∀ name_text extensions_text folder_text cats,
     declares_no_empty cats →
     declares_no_empty
       (add_custom_category name_text extensions_text folder_text cats).1) ∧
  (∀ j b cats,
     declares_no_empty cats →
     declares_no_empty (on_enabled_changed j b cats)) ∧
  (∀ cats fs p,
     declares_no_empty cats →
     path_suffix p = EmptyString →
     get_category_for_extension cats (extension (new_FileInfo fs p)) = None).
Proof.
  split; [|split; [|split]].
  - unfold declares_no_empty. apply (bool_decide_unpack _).
    vm_compute. reflexivity.
  - intros name_text extensions_text folder_text cats Hcats.
    pose proof (add_custom_category_inv name_text extensions_text
                  folder_text cats) as H.
    destruct (add_custom_category _ _ _ _) as [cats' [|]]; simpl.
    + destruct H as (c & -> & _ & _ & _ & _ & _ & _ & _ & Hall).
      apply Forall_app. split; [done|]. constructor; [|constructor].
      intros Hin. rewrite Forall_forall in Hall.
      by destruct (Hall _ Hin) as [? _].
    + by destruct H as [-> _].
  - intros j b cats Hcats. unfold declares_no_empty in *.
    apply Forall_forall. intros c Hc.
    apply list_elem_of_lookup in Hc as [k Hk].
    rewrite lookup_on_enabled_changed in Hk.
    rewrite Forall_forall in Hcats.
    destruct (decide (j = k)) as [->|].
    + destruct (cats !! k) as [c0|] eqn:E; [|done]. injection Hk as <-.
      simpl. apply Hcats. by eapply list_elem_of_lookup_2.
    + apply Hcats. by eapply list_elem_of_lookup_2.
  - intros cats fs p Hcats Hp. unfold get_category_for_extension.
    apply find_category_None. intros m c' Hc' [_ Hx]. simpl in Hx.
    rewrite Hp in Hx. simpl in Hx.
    unfold declares_no_empty in Hcats. rewrite Forall_forall in Hcats.
    apply (Hcats c'); [|done]. by eapply list_elem_of_lookup_2.
Qed.

(** ** What a run does to the registry *)

Lemma begin_processing_cats (os : OS) (w : Worker) (st st1 : state)
    (x : option exn) :
  begin_processing os w st = (st1, x) →
  st_cats st1 = st_cats st ∨
  (x = None ∧ st_cats st1 = reset_counts (st_cats st)).
Proof.
  unfold begin_processing.
  destruct (if dry_run w then _ else _) as [fs1 [e|]]; intros [= <- <-].
  - by left.
  - by right.
Qed.

Lemma run_rules (os : OS) (should_stop : nat → bool) (w : Worker)
    (st st' : state) (evs : list event) :
  run os should_stop w st = (st', evs) →
  rules <$> st_cats st' = rules <$> st_cats st.
Proof.
  intros Hrun. apply run_cases in Hrun as (evs0 & x & Hcase & _).
  assert (∀ st1 x1, begin_processing os w st = (st1, x1) →
                    rules <$> st_cats st1 = rules <$> st_cats st) as Hbegin.
  { intros st1 x1 [->|[_ ->]]%begin_processing_cats; [done|].
    apply rules_reset_counts. }
  destruct Hcase as
    [ Hscan | e Hscan | Hscan | fs0 st1 e Hscan Hne Hb
    | fs0 st1 st2 evs2 Hscan Hne Hb Hl
    | fs0 st1 st2 evs2 org unc st3 evs3 e Hscan Hne Hb Hl Hf
    | fs0 st1 st2 evs2 org unc st3 evs3 Hscan Hne Hb Hl Hf ]; try done.
  - by eapply Hbegin.
  - apply Hbegin in Hb. apply process_loop_rules in Hl. congruence.
  - apply Hbegin in Hb. apply process_loop_rules in Hl.
    apply finish_uncategorized_inv in Hf as [Hf _]. congruence.
  - apply Hbegin in Hb. apply process_loop_rules in Hl.
    apply finish_uncategorized_inv in Hf as [Hf _]. congruence.
Qed.

(** X9. A run changes nothing of the registry but counters: the
    categories keep their number, order, names, extensions, folder names
    and enabled flags, however the run ends; so every extension is
    classified after the run as it was before. *)
Theorem run_changes_only_counters (os : OS) (should_stop : nat → bool)
    (w : Worker) (st st' : state) (evs : list event) :
  run os should_stop w st = (st', evs) →
  rules <$> st_cats st' = rules <$> st_cats st ∧
  length (st_cats st') = length (st_cats st) ∧
  ∀ ext, fst <$> get_category_for_extension (st_cats st') ext
         = fst <$> get_category_for_extension (st_cats st) ext.
Proof.
  intros Hrun. apply run_rules in Hrun. split; [done|]. split.
  - apply (f_equal length) in Hrun. by rewrite !length_fmap in Hrun.
  - intros ext. by apply get_category_rules.
Qed.

Lemma run_changes_only_counters_witness :
  let r := run os_locked never_stop inbox_worker inbox_state in
  rules <$> st_cats r.1 = rules <$> registry ∧
  length (st_cats r.1) = length registry ∧
  ∀ ext, fst <$> get_category_for_extension (st_cats r.1) ext
         = fst <$> get_category_for_extension registry ext.
Proof.
  intros r.
  apply (run_changes_only_counters os_locked never_stop inbox_worker
           inbox_state r.1 r.2 (surjective_pairing r)).
Defined.

(** *** Counters of disabled categories *)

Lemma routed_enabled (w : Worker) (cats : list FileCategory) (j : nat)
    (c : FileCategory) (f : FileInfo) :
  routed w cats j f = true → cats !! j = Some c → enabled c = true.
Proof.
  unfold routed. intros [_ H%bool_decide_eq_true]%andb_true_iff Hj.
  destruct (get_category_for_extension cats (extension f)) as [[j' c']|] eqn:E;
    [|done].
  injection H as ->. apply get_category_Some in E as [Hj' He]. congruence.
Qed.

Lemma file_outcome_cats (os : OS) (w : Worker) f st org unc st' evs org' unc' :
  file_outcome os w f st org unc st' evs org' unc' →
  (st_cats st' = st_cats st ∧ org' = org) ∨
  (∃ j c, st_cats st !! j = Some c ∧ enabled c = true ∧
          st_cats st' = alter increment_count j (st_cats st) ∧
          org' = org + 1).
Proof.
  intros [| | j c _ Hr Hj | j c st1 evs1 _ Hr Hj Hmv
         | j c st1 evs1 _ Hr Hj Hmv].
  - by left.
  - by left.
  - right. exists j, c. by rewrite (routed_enabled _ _ _ _ _ Hr Hj).
  - right. exists j, c. rewrite (routed_enabled _ _ _ _ _ Hr Hj).
    apply move_file_inv in Hmv as (? & ? & _ & [(? & _)|(_ & _ & -> & _)]);
      done.
  - left.
    apply move_file_inv in Hmv as (? & ? & _ & [(_ & _ & -> & _)|(? & _)]);
      done.
Qed.

Lemma process_loop_disabled (os : OS) (should_stop : nat → bool) (w : Worker)
    (j : nat) (c : FileCategory) base total files i st org unc st' evs r :
  enabled c = false →
  process_loop os should_stop w base total files i st org unc
    = (st', evs, r) →
  st_cats st !! j = Some c → st_cats st' !! j = Some c.
Proof.
  intros Hen. revert files i st org unc st' evs r.
  apply (process_loop_ind' os should_stop w base total
           (λ _ _ st _ _ st' _ _,
              st_cats st !! j = Some c → st_cats st' !! j = Some c));
    try done.
  intros f rest i st org unc st1 evs1 org1 unc1 st2 evs2 r _ Hf _ IH Hj.
  apply IH.
  apply file_outcome_cats in Hf as [[-> _]|(j0 & c0 & Hj0 & He0 & -> & _)];
    [done|].
  rewrite list_lookup_alter_ne; [done|]. intros ->. congruence.
Qed.

(** X10. A run never touches the counter of a disabled category: it is
    neither reset nor incremented, however the run ends. *)
Theorem disabled_category_is_left_alone (os : OS) (should_stop : nat → bool)
    (w : Worker) (st st' : state) (evs : list event) (j : nat)
    (c : FileCategory) :
  run os should_stop w st = (st', evs) →
  st_cats st !! j = Some c →
  enabled c = false →
  st_cats st' !! j = Some c.
Proof.
  intros Hrun Hj Hen.
  apply run_cases in Hrun as (evs0 & x & Hcase & _).
  assert (∀ st1 x1, begin_processing os w st = (st1, x1) →
                    st_cats st1 !! j = Some c) as Hbegin.
  { intros st1 x1 [->|[_ ->]]%begin_processing_cats; [done|].
    by rewrite (count_at_reset _ _ _ Hj), Hen. }
  destruct Hcase as
    [ Hscan | e Hscan | Hscan | fs0 st1 e Hscan Hne Hb
    | fs0 st1 st2 evs2 Hscan Hne Hb Hl
    | fs0 st1 st2 evs2 org unc st3 evs3 e Hscan Hne Hb Hl Hf
    | fs0 st1 st2 evs2 org unc st3 evs3 Hscan Hne Hb Hl Hf ]; try done.
  - by eapply Hbegin.
  - apply Hbegin in Hb. by eapply process_loop_disabled.
  - apply Hbegin in Hb. apply finish_uncategorized_inv in Hf as [-> _].
    by eapply process_loop_disabled.
  - apply Hbegin in Hb. apply finish_uncategorized_inv in Hf as [-> _].
    by eapply process_loop_disabled.
Qed.

Lemma disabled_category_is_left_alone_witness :
  st_cats (run os_permissive never_stop inbox_worker
             (mkState inbox_tree [stale_documents; images])).1 !! 0
  = Some stale_documents.
Proof.
  set (r := run os_permissive never_stop inbox_worker
              (mkState inbox_tree [stale_documents; images])).
  apply (disabled_category_is_left_alone os_permissive never_stop inbox_worker
           (mkState inbox_tree [stale_documents; images]) r.1 r.2 0
           stale_documents (surjective_pairing r)); reflexivity.
Defined.

(** *** The organized count and the counters *)

Lemma enabled_total_alter (cats : list FileCategory) (j : nat)
    (c : FileCategory) :
  cats !! j = Some c → enabled c = true →
  enabled_total (alter increment_count j cats) = enabled_total cats + 1.
Proof.
  unfold enabled_total. revert j.
  induction cats as [|c0 cats IH]; intros [|j] Hj He; try done.
  - injection Hj as ->. csimpl. rewrite He. lia.
  - csimpl. rewrite (IH j Hj He). lia.
Qed.

Lemma enabled_total_reset (cats : list FileCategory) :
  enabled_total (reset_counts cats) = 0.
Proof.
  unfold enabled_total, reset_counts.
  induction cats as [|c cats IH]; csimpl; [done|]. rewrite IH.
  by destruct (enabled c) eqn:E; simpl; rewrite E.
Qed.

Lemma process_loop_enabled_total (os : OS) (should_stop : nat → bool)
    (w : Worker) base total files i st org unc st' evs r :
  process_loop os should_stop w base total files i st org unc
    = (st', evs, r) →
  match r with
  | Stopped => True
  | Completed org' _ =>
      enabled_total (st_cats st') + org = enabled_total (st_cats st) + org'
  end.
Proof.
  revert files i st org unc st' evs r.
  apply process_loop_ind'; try done.
  intros f rest i st org unc st1 evs1 org1 unc1 st2 evs2 r _ Hf _ IH.
  destruct r as [|org' unc']; [done|].
  apply file_outcome_cats in Hf as [[E ->]|(j0 & c0 & Hj0 & He0 & E & ->)];
    rewrite E in IH; [done|].
  rewrite (enabled_total_alter _ _ _ Hj0 He0) in IH. lia.
Qed.

(** X11. In a summary that follows the processing of files, the organized
    count is the sum of the counters of the enabled categories. *)
Theorem organized_is_the_sum_of_enabled_counters (os : OS)
    (should_stop : nat → bool) (w : Worker) (st st' : state)
    (evs : list event) (s : Summary) :
  run os should_stop w st = (st', evs) →
  finished s ∈ evs →
  total_files s ≠ 0 →
  organized s = enabled_total (st_cats st').
Proof.
  intros Hrun Hin Htotal.
  destruct (run_finished_inv _ _ _ _ _ _ _ Hrun Hin) as (_ & _ & Hcases).
  destruct Hcases as [(_ & -> & _)|(_ & Hcases)]; [done|].
  destruct Hcases as (st1 & st2 & evs2 & org & unc & evs3 & Hb & Hl & Hf
                      & -> & _).
  apply begin_processing_inv in Hb as [Hcats1 _].
  apply finish_uncategorized_inv in Hf as [-> _].
  apply process_loop_enabled_total in Hl.
  rewrite Hcats1, enabled_total_reset in Hl. simpl. lia.
Qed.

Lemma organized_is_the_sum_of_enabled_counters_witness :
  organized inbox_summary
  = enabled_total
      (st_cats (run os_permissive never_stop inbox_worker inbox_state).1).
Proof.
  set (r := run os_permissive never_stop inbox_worker inbox_state).
  apply (organized_is_the_sum_of_enabled_counters os_permissive never_stop
           inbox_worker inbox_state r.1 r.2 inbox_summary
           (surjective_pairing r)).
  - vm_compute. repeat constructor.
  - discriminate.
Defined.

(** ** A run keeps the files *)













(** ** How a run ends *)

Lemma scan_loop_ScanStopped (os : OS) (should_stop : nat → bool) (fs : FS)
    (entries : list Path) (k : nat) (acc : list FileInfo) :
  scan_loop os should_stop fs entries k acc = ScanStopped →
  ∃ m, m < length entries ∧ should_stop (k + m) = true.
Proof.
  revert k acc. induction entries as [|p entries IH]; intros k acc; simpl;
    [done|].
  destruct (should_stop k) eqn:Ek.
  { intros _. exists 0. split; [lia|]. by rewrite Nat.add_0_r. }
  destruct (stat_error os p); [done|].
  intros H. assert (∃ m, m < length entries
                         ∧ should_stop (S k + m) = true) as (m & Hm & Hs).
  { destruct (is_file fs p); by eapply IH. }
  exists (S m). split; [lia|]. by rewrite Nat.add_succ_r.
Qed.

(** X13. A run ends in exactly one of three ways.  Either its last signal
    is the summary, or its last signal is an error, or it emits neither;
    before the last signal there is no summary and no error, so a run
    never reports both and never reports twice.  A run that reports
    nothing has read the stop flag as set, during the scan or in the
    processing loop: when nobody asks to stop, every run reports its
    end. *)
Theorem run_reports_its_end_once (os : OS) (should_stop : nat → bool)
    (w : Worker) (st st' : state) (evs : list event) :
  run os should_stop w st = (st', evs) →
  ∃ pre,
    Forall (λ ev, is_summary ev = false ∧ is_error ev = false) pre ∧
    ((∃ s, evs = pre ++ [finished s]) ∨
     (∃ m, evs = pre ++ [error_occurred m]) ∨
     (evs = pre ∧
      ∃ k, k < length (rglob (st_fs st) (source_dir w))
               + length (scanned_files (st_fs st) (source_dir w)) ∧
           should_stop k = true)).
Proof.
  intros Hrun. apply run_cases in Hrun as (evs0 & x & Hcase & ->).
  assert (Forall (λ ev, is_summary ev = false ∧ is_error ev = false)
            (start_events w)) as Hstart.
  { eapply Forall_impl; [apply start_events_plain|].
    by intros ? (? & ? & _). }
  destruct Hcase as
    [ Hscan | e Hscan | Hscan | fs0 st1 e Hscan Hne Hb
    | fs0 st1 st2 evs2 Hscan Hne Hb Hl
    | fs0 st1 st2 evs2 org unc st3 evs3 e Hscan Hne Hb Hl Hf
    | fs0 st1 st2 evs2 org unc st3 evs3 Hscan Hne Hb Hl Hf ].
  - exists (start_events w). split; [done|]. right. right.
    rewrite app_nil_r. split; [done|].
    apply scan_loop_ScanStopped in Hscan as (m & Hm & Hs).
    exists m. split; [lia|done].
  - exists (start_events w). split; [done|]. right. left.
    rewrite app_nil_r. by eexists.
  - exists (start_events w ++ [log_updated LogNoFiles]).
    split; [apply Forall_app; split; [done|by repeat constructor]|].
    left. exists (mkSummary 0 0 0 []).
    by rewrite app_nil_r, <-(assoc_L (++)).
  - exists (start_events w ++ [log_updated (LogFound (length fs0))]).
    split; [apply Forall_app; split; [done|by repeat constructor]|].
    right. left. by eexists.
  - exists (start_events w ++ [log_updated (LogFound (length fs0))] ++ evs2).
    split.
    { apply Forall_app; split; [done|].
      apply Forall_app; split; [by repeat constructor|].
      by eapply process_loop_events. }
    right. right. rewrite app_nil_r. split; [done|].
    apply scan_Scanned in Hscan as [-> _].
    apply process_loop_stop in Hl as (k & Hk & Hs).
    eexists. split; [|exact Hs]. simpl. lia.
  - exists (start_events w ++ [log_updated (LogFound (length fs0))]
              ++ evs2 ++ evs3).
    split.
    { apply Forall_app; split; [done|].
      apply Forall_app; split; [by repeat constructor|].
      apply Forall_app; split; [by eapply process_loop_events|].
      apply finish_uncategorized_inv in Hf as [_ Hf].
      eapply Forall_impl; [exact Hf|]. by intros ? (? & ? & _). }
    right. left. by eexists.
  - exists (start_events w ++ [log_updated (LogFound (length fs0))]
              ++ evs2 ++ evs3
              ++ [progress_updated (Percent 100); status_updated "Complete!";
                  log_updated (LogComplete org)]).
    split.
    { apply Forall_app; split; [done|].
      apply Forall_app; split; [by repeat constructor|].
      apply Forall_app; split; [by eapply process_loop_events|].
      apply Forall_app; split; [|by repeat constructor].
      apply finish_uncategorized_inv in Hf as [_ Hf].
      eapply Forall_impl; [exact Hf|]. by intros ? (? & ? & _). }
    left. exists (make_summary fs0 org unc (st_cats st3)).
    rewrite app_nil_r. unfold completion_events.
    by rewrite <-!(assoc_L (++)).
Qed.

Lemma run_reports_its_end_once_witness :
  let r := run os_permissive stop_from_5 inbox_worker inbox_state in
  ∃ pre,
    Forall (λ ev, is_summary ev = false ∧ is_error ev = false) pre ∧
    ((∃ s, r.2 = pre ++ [finished s]) ∨
     (∃ m, r.2 = pre ++ [error_occurred m]) ∨
     (r.2 = pre ∧
      ∃ k, k < length (rglob inbox_tree ["inbox"])
               + length (scanned_files inbox_tree ["inbox"]) ∧
           stop_from_5 k = true)).
Proof.
  intros r.
  apply (run_reports_its_end_once os_permissive stop_from_5 inbox_worker
           inbox_state r.1 r.2 (surjective_pairing r)).
Defined.

(** ** An empty source *)

Local Ltac elem_cases H :=
  repeat first
    [ apply elem_of_app in H as [H|H]
    | apply elem_of_cons in H as [H|H]
    | apply elem_of_nil in H; destruct H ];
  try done; try (by injection H).

(** X14. When the source directory holds no regular file, the run touches
    nothing, however it ends: the destination root is not created, not
    even in a real run, and no counter is reset, so the categories keep
    the counts of the run before.  If the run ends with a summary, the
    summary is all zeros and lists no category, whatever the counters
    say. *)
Theorem empty_source_changes_nothing (os : OS) (should_stop : nat → bool)
    (w : Worker) (st st' : state) (evs : list event) :
  scanned_files (st_fs st) (source_dir w) = [] →
  run os should_stop w st = (st', evs) →
  st' = st ∧
  (∀ n, log_updated (LogFound n) ∉ evs) ∧
  (∀ s, finished s ∈ evs → s = mkSummary 0 0 0 []).
Proof.
  intros Hnone Hrun. apply run_cases in Hrun as (evs0 & x & Hcase & ->).
  assert (∀ files, scan_loop os should_stop (st_fs st)
                     (rglob (st_fs st) (source_dir w)) 0 [] = Scanned files →
                   files ≠ [] → False) as Hno.
  { intros files [-> _]%scan_Scanned. by rewrite Hnone. }
  destruct Hcase as
    [ Hscan | e Hscan | Hscan | fs0 st1 e Hscan Hne Hb
    | fs0 st1 st2 evs2 Hscan Hne Hb Hl
    | fs0 st1 st2 evs2 org unc st3 evs3 e Hscan Hne Hb Hl Hf
    | fs0 st1 st2 evs2 org unc st3 evs3 Hscan Hne Hb Hl Hf ];
    try (by destruct (Hno _ Hscan Hne)).
  - split; [done|]. unfold start_events. split.
    + intros n Hin. elem_cases Hin.
    + intros s Hin. elem_cases Hin.
  - split; [done|]. unfold start_events. split.
    + intros n Hin. elem_cases Hin.
    + intros s Hin. elem_cases Hin.
  - split; [done|]. unfold start_events. split.
    + intros n Hin. elem_cases Hin.
    + intros s Hin. elem_cases Hin.
Qed.

(** ** The categories of a summary *)

Lemma dict_set_keys (d : list (string * nat)) (k : string) (v : nat)
    (k' : string) :
  k' ∈ (dict_set d k v).*1 ↔ k' = k ∨ k' ∈ d.*1.
Proof.
  induction d as [|[k0 v0] d IH]; csimpl.
  - rewrite list_elem_of_singleton, elem_of_nil. tauto.
  - destruct (decide (k0 = k)) as [->|Hne]; csimpl;
      rewrite !elem_of_cons, ?IH; tauto.
Qed.

Lemma dict_set_NoDup (d : list (string * nat)) (k : string) (v : nat) :
  NoDup d.*1 → NoDup (dict_set d k v).*1.
Proof.
  induction d as [|[k0 v0] d IH]; simpl.
  - intros _. apply NoDup_singleton.
  - csimpl. intros [Hk0 Hd]%NoDup_cons.
    destruct (decide (k0 = k)) as [->|Hne]; csimpl.
    + by apply NoDup_cons.
    + apply NoDup_cons. split; [|by apply IH].
      rewrite dict_set_keys. by intros [->|?].
Qed.

Lemma dict_set_positive (d : list (string * nat)) (k : string) (v : nat) :
  0 < v → Forall (λ kv, 0 < kv.2) d → Forall (λ kv, 0 < kv.2) (dict_set d k v).
Proof.
  intros Hv. induction d as [|[k0 v0] d IH]; simpl.
  - by repeat constructor.
  - intros [H0 Hd]%Forall_cons.
    destruct (decide (k0 = k)); constructor; auto.
Qed.

Lemma summary_fold_get (cats : list FileCategory) (d : list (string * nat))
    (nm : string) :
  dict_get
    (foldl (λ d cat, if 0 <? file_count cat
                     then dict_set d (name cat) (file_count cat) else d)
       d cats) nm
  = match last (filter (λ c, name c = nm ∧ 0 < file_count c) cats) with
    | Some c => Some (file_count c)
    | None => dict_get d nm
    end.
Proof.
  revert d. induction cats as [|c cats IH]; intros d; [done|].
  simpl. rewrite IH, filter_cons.
  destruct (decide (name c = nm ∧ 0 < file_count c)) as [[<- Hpos]|Hno].
  - apply Nat.ltb_lt in Hpos as ->. rewrite last_cons.
    destruct (last _); [done|]. simpl. apply dict_get_set_eq.
  - destruct (last _); [done|].
    destruct (0 <? file_count c) eqn:Hpos; [|done].
    apply dict_get_set_ne. intros <-. apply Hno.
    by apply Nat.ltb_lt in Hpos.
Qed.

Lemma summary_fold_keys (cats : list FileCategory) (d : list (string * nat)) :
  NoDup d.*1 → Forall (λ kv, 0 < kv.2) d →
  let d' := foldl (λ d cat, if 0 <? file_count cat
                            then dict_set d (name cat) (file_count cat)
                            else d) d cats in
  NoDup d'.*1 ∧ Forall (λ kv, 0 < kv.2) d'.
Proof.
  revert d. induction cats as [|c cats IH]; intros d Hd Hpos; [done|].
  simpl. apply IH.
  - destruct (0 <? file_count c); [by apply dict_set_NoDup|done].
  - destruct (0 <? file_count c) eqn:E; [|done].
    apply dict_set_positive; [by apply Nat.ltb_lt|done].
Qed.

(** X15. The per-category part of a summary is keyed by the category
    name.  Every name occurs once and every listed count is positive; the
    count listed for a name is the counter of the last category of that
    name whose counter is positive, and a name is absent when there is no
    such category.  So of two categories with the same name only the later
    one is reported. *)
Theorem summary_lists_the_last_of_a_name (cats : list FileCategory) :
  NoDup (summary_categories cats).*1 ∧
  Forall (λ kv, 0 < kv.2) (summary_categories cats) ∧
  ∀ nm, dict_get (summary_categories cats) nm
        = file_count
            <$> last (filter (λ c, name c = nm ∧ 0 < file_count c) cats).
Proof.
  destruct (summary_fold_keys cats []) as [Hk Hp];
    [apply NoDup_nil_2|done|].
  split; [done|]. split; [done|].
  intros nm. unfold summary_categories. rewrite summary_fold_get.
  by destruct (last _).
Qed.

(** Two categories named [Images] that filed two and three files: the
    summary lists three. *)
Example summary_of_a_shared_name :
  let cats := [increment_count (increment_count images); documents;
               increment_count (increment_count (increment_count
                 (new_FileCategory "Images" [".gif"] "Animations")))] in
  summary_categories cats = [("Images", 3)].
Proof. reflexivity. Qed.

Lemma empty_source_changes_nothing_witness :
  let st := mkState empty_inbox [increment_count images] in
  let r := run os_permissive never_stop inbox_worker st in
  r.1 = st ∧
  (∀ n, log_updated (LogFound n) ∉ r.2) ∧
  (∀ s, finished s ∈ r.2 → s = mkSummary 0 0 0 []).
Proof.
  intros st r.
  apply (empty_source_changes_nothing os_permissive never_stop inbox_worker
           st r.1 r.2);
    [vm_compute; reflexivity | apply surjective_pairing].
Defined.

(** ** The progress bar *)

Lemma progress_values_app (l1 l2 : list event) :
  progress_values (l1 ++ l2) = progress_values l1 ++ progress_values l2.
Proof. apply omap_app. Qed.

Lemma file_outcome_progress (os : OS) (w : Worker) f st org unc st' evs
    org' unc' :
  file_outcome os w f st org unc st' evs org' unc' → progress_values evs = [].
Proof.
  intros [| | | j c st1 evs1 _ _ _ Hmv | j c st1 evs1 _ _ _ Hmv]; try done.
  - apply move_file_inv in Hmv
      as (? & ? & _ & [(_ & _ & _ & ? & ->)|(_ & _ & _ & -> & _)]); done.
  - apply move_file_inv in Hmv
      as (? & ? & _ & [(_ & _ & _ & ? & ->)|(_ & _ & _ & -> & _)]); done.
Qed.

Lemma process_loop_progress (os : OS) (should_stop : nat → bool)
    (w : Worker) base total files i st org unc st' evs r :
  process_loop os should_stop w base total files i st org unc
    = (st', evs, r) →
  ∃ k, k ≤ length files ∧
       progress_values evs = (λ i, Ratio i total) <$> seq i k ∧
       (∀ org' unc', r = Completed org' unc' → k = length files).
Proof.
  revert files i st org unc st' evs r.
  apply process_loop_ind'.
  - intros. exists 0. by repeat split.
  - intros. exists 0. repeat split; [simpl; lia|done].
  - intros f rest i st org unc st1 evs1 org1 unc1 st2 evs2 r _ Hf _
      (k & Hk & Hev & Hr).
    exists (S k). split; [simpl; lia|]. split.
    + rewrite !progress_values_app, (file_outcome_progress _ _ _ _ _ _ _ _ _ _ Hf).
      by rewrite Hev.
    + intros org' unc' Hc. simpl. f_equal. by eapply Hr.
Qed.

Lemma move_uncategorized_progress (os : OS) folder files fs fs' evs :
  move_uncategorized os folder files fs = (fs', evs) →
  progress_values evs = [].
Proof.
  revert fs fs' evs. induction files as [|f files IH]; intros fs fs' evs;
    simpl.
  - by intros [= <- <-].
  - destruct (move_uncategorized_file os folder f fs) as [fs1 evs1] eqn:E1.
    destruct (move_uncategorized os folder files fs1) as [fs2 evs2] eqn:E2.
    intros [= <- <-]. rewrite progress_values_app, (IH _ _ _ E2).
    by apply move_uncategorized_file_inv in E1
      as [(_ & ? & ->)|(-> & _)].
Qed.

Lemma finish_uncategorized_progress (os : OS) (w : Worker) unc st st' evs x :
  finish_uncategorized os w unc st = (st', evs, x) →
  progress_values evs = [].
Proof.
  unfold finish_uncategorized, handle_uncategorized_files.
  destruct (dry_run w); [by intros [= <- <- <-]|].
  destruct unc as [|f unc]; [by intros [= <- <- <-]|].
  destruct (mkdir os (st_fs st) _) as [fs1 [e|]].
  - by intros [= <- <- <-].
  - destruct (move_uncategorized _ _ _ _) as [fs2 evs2] eqn:E.
    intros [= <- <- <-]. by eapply move_uncategorized_progress.
Qed.

(** X16. What the progress bar is shown during a run of a source with [n]
    files: the ratios [0/n], [1/n], ... in this order, one per file
    reached, so that the divisor is never zero and the ratio is always
    below one; then [100], once, exactly when the run completes with
    [n > 0].  A run over an empty source, a stopped run and a run that
    ends with an error never show [100]. *)
Theorem progress_counts_the_files (os : OS) (should_stop : nat → bool)
    (w : Worker) (st st' : state) (evs : list event) :
  run os should_stop w st = (st', evs) →
  let n := length (scanned_files (st_fs st) (source_dir w)) in
  (∃ k, k ≤ n ∧
        progress_values evs = (λ i, Ratio i n) <$> seq 0 k ∧
        ∀ s, finished s ∈ evs → n = 0) ∨
  (n ≠ 0 ∧
   progress_values evs = ((λ i, Ratio i n) <$> seq 0 n) ++ [Percent 100] ∧
   ∃ s, last evs = Some (finished s)).
Proof.
  intros Hrun n. apply run_cases in Hrun as (evs0 & x & Hcase & ->).
  assert (progress_values (start_events w) = []) as Hstart by done.
  assert (∀ e, progress_values
                 (match x with Some e => [error_occurred e] | None => [] end)
               = []) as Hx by (by destruct x).
  destruct Hcase as
    [ Hscan | e Hscan | Hscan | fs0 st1 e Hscan Hne Hb
    | fs0 st1 st2 evs2 Hscan Hne Hb Hl
    | fs0 st1 st2 evs2 org unc st3 evs3 e Hscan Hne Hb Hl Hf
    | fs0 st1 st2 evs2 org unc st3 evs3 Hscan Hne Hb Hl Hf ].
  - left. exists 0. split; [lia|]. split; [done|].
    intros s Hin. unfold start_events in Hin. elem_cases Hin.
  - left. exists 0. split; [lia|]. split; [done|].
    intros s Hin. unfold start_events in Hin. elem_cases Hin.
  - left. exists 0. split; [lia|]. split; [done|].
    intros _ _. apply scan_Scanned in Hscan as [Hfiles _].
    subst n. by rewrite <-Hfiles.
  - left. exists 0. split; [lia|]. split; [done|].
    intros s Hin. unfold start_events in Hin. elem_cases Hin.
  - left. apply scan_Scanned in Hscan as [-> _].
    apply process_loop_progress in Hl as Hp.
    destruct Hp as (k & Hk & Hev & _).
    exists k. split; [done|]. split.
    + rewrite !progress_values_app, Hstart, Hev. simpl.
      by rewrite app_nil_r.
    + intros s Hin. exfalso. revert Hin. rewrite app_nil_r.
      apply (not_summary_elem (λ ev, is_error ev = false)).
      apply Forall_app; split.
      { eapply Forall_impl; [apply start_events_plain|].
        by intros ? (? & ? & _). }
      apply Forall_app; split; [by repeat constructor|].
      by eapply process_loop_events.
  - left. apply scan_Scanned in Hscan as [-> _].
    apply process_loop_progress in Hl as Hp.
    destruct Hp as (k & Hk & Hev & _).
    exists k. split; [done|]. split.
    + rewrite !progress_values_app, Hstart, Hev,
        (finish_uncategorized_progress _ _ _ _ _ _ _ Hf). simpl.
      by rewrite !app_nil_r.
    + intros s Hin. exfalso. revert Hin.
      apply (not_summary_elem (λ _, True)).
      apply Forall_app; split; [|by repeat constructor].
      apply Forall_app; split.
      { eapply Forall_impl; [apply start_events_plain|].
        by intros ? (? & ? & _). }
      apply Forall_app; split; [by repeat constructor|].
      apply Forall_app; split.
      { eapply Forall_impl; [by eapply process_loop_events|].
        by intros ? (? & _). }
      apply finish_uncategorized_inv in Hf as [_ Hf].
      eapply Forall_impl; [exact Hf|]. by intros ? (? & _).
  - right. apply scan_Scanned in Hscan as [-> _].
    apply process_loop_progress in Hl as Hp.
    destruct Hp as (k & Hk & Hev & Hc).
    rewrite (Hc _ _ eq_refl) in Hev.
    split; [subst n; by destruct (scanned_files _ _)|]. split.
    + rewrite !progress_values_app, Hstart, Hev,
        (finish_uncategorized_progress _ _ _ _ _ _ _ Hf). simpl.
      by rewrite !app_nil_r.
    + eexists. rewrite app_nil_r. unfold completion_events.
      rewrite !app_assoc.
      change [?a; ?b; ?c; ?d] with ([a; b; c] ++ [d]).
      rewrite app_assoc. apply last_snoc.
Qed.

Lemma progress_counts_the_files_witness :
  let r := run os_permissive stop_from_5 inbox_worker inbox_state in
  let n := length (scanned_files inbox_tree ["inbox"]) in
  (∃ k, k ≤ n ∧
        progress_values r.2 = (λ i, Ratio i n) <$> seq 0 k ∧
        ∀ s, finished s ∈ r.2 → n = 0) ∨
  (n ≠ 0 ∧
   progress_values r.2 = ((λ i, Ratio i n) <$> seq 0 n) ++ [Percent 100] ∧
   ∃ s, last r.2 = Some (finished s)).
Proof.
  intros r.
  apply (progress_counts_the_files os_permissive stop_from_5 inbox_worker
           inbox_state r.1 r.2 (surjective_pairing r)).
Defined.

(** ** A run without a failed move *)





Section clean_run.
Variables (os : OS) (should_stop : nat → bool) (w : Worker).
Hypothesis Hreal : dry_run w = false.





End clean_run.



(** ** A destination that contains the source *)

Lemma skipped_below_destination (w : Worker) (fs : FS) (f : FileInfo) :
  dest_dir w `prefix_of` source_dir w →
  f ∈ scanned_files fs (source_dir w) → skipped w f = true.
Proof.
  intros [k Hk] [_ Hin]%scanned_files_path.
  apply in_parents_true in Hin as (r & Hr & Hp).
  unfold skipped. apply in_parents_true. exists (k ++ r). split.
  - by destruct k, r.
  - by rewrite Hp, Hk, <-(assoc_L (++)).
Qed.

Lemma process_loop_all_skipped (os : OS) (should_stop : nat → bool)
    (w : Worker) base total files i st org unc st' evs r :
  process_loop os should_stop w base total files i st org unc
    = (st', evs, r) →
  Forall (λ f, skipped w f = true) files →
  st' = st ∧ Forall (λ ev, is_failure ev = false) evs ∧
  ∀ org' unc', r = Completed org' unc' → org' = org ∧ unc' = unc.
Proof.
  revert files i st org unc st' evs r.
  apply (process_loop_ind' os should_stop w base total
    (λ files _ st org unc st' evs r,
       Forall (λ f, skipped w f = true) files →
       st' = st ∧ Forall (λ ev, is_failure ev = false) evs ∧
       ∀ org' unc', r = Completed org' unc' → org' = org ∧ unc' = unc)).
  - intros i st org unc _. split; [done|]. split; [done|].
    by intros ?? [= <- <-].
  - done.
  - intros f rest i st org unc st1 evs1 org1 unc1 st2 evs2 r _ Hout _ IH
      [Hf Hrest]%Forall_cons.
    assert (st1 = st ∧ evs1 = [] ∧ org1 = org ∧ unc1 = unc)
      as (-> & -> & -> & ->).
    { destruct Hout as [| Hu | j c _ Hr | j c ? ? _ Hr | j c ? ? _ Hr];
        [done|..]; unfold unmatched, routed in *; rewrite Hf in *; done. }
    destruct (IH Hrest) as (-> & Hev & Hc). split; [done|]. split; [|done].
    by repeat constructor.
Qed.

(** X18. When the destination root is the source directory itself or one
    of its ancestors, every file of the scan counts as lying within the
    destination and is passed over.  A run that ends with a summary has
    then moved nothing: every entry of the tree is still at its path, the
    summary reports all the files as scanned and none as organized or
    uncategorized, and no move is logged as failed. *)
Theorem destination_around_source_moves_nothing (os : OS)
    (should_stop : nat → bool) (w : Worker) (st st' : state)
    (evs : list event) (s : Summary) :
  dest_dir w `prefix_of` source_dir w →
  run os should_stop w st = (st', evs) →
  finished s ∈ evs →
  (∀ p n, st_fs st !! p = Some n → st_fs st' !! p = Some n) ∧
  total_files s = length (scanned_files (st_fs st) (source_dir w)) ∧
  organized s = 0 ∧ uncategorized s = 0 ∧
  Forall (λ ev, is_failure ev = false) evs.
Proof.
  intros Hpre Hrun Hfin.
  destruct (run_finished_inv _ _ _ _ _ _ _ Hrun Hfin) as (_ & _ & Hcases).
  destruct Hcases as [(Hnil & -> & -> & ->)
                     |(_ & st1 & st2 & evs2 & org & unc & evs3
                         & Hb & Hl & Hu & -> & ->)].
  { rewrite Hnil. split; [done|]. repeat split; try done.
    unfold start_events. by repeat constructor. }
  apply process_loop_all_skipped in Hl as (-> & Hev2 & Hc).
  2:{ apply Forall_forall. intros f Hf.
      by eapply skipped_below_destination. }
  destruct (Hc _ _ eq_refl) as [-> ->].
  assert (st' = st1 ∧ evs3 = []) as [-> ->].
  { revert Hu. unfold finish_uncategorized, handle_uncategorized_files.
    destruct (dry_run w); by intros [= <- <-]. }
  split; [|repeat split; try done].
  - intros p n Hp. revert Hb. unfold begin_processing.
    destruct (dry_run w); [by intros [= <-]|].
    destruct (mkdir os (st_fs st) (dest_dir w)) as [fs1 [e|]] eqn:Emk;
      [done|]. intros [= <-]. simpl. by eapply mkdir_preserves.
  - unfold start_events, completion_events.
    apply Forall_app; split; [by repeat constructor|].
    apply Forall_app; split; [by repeat constructor|].
    apply Forall_app; split; [done|]. by repeat constructor.
Qed.

Lemma destination_around_source_moves_nothing_witness :
  let r := run os_permissive never_stop inplace_worker inbox_state in
  let s := mkSummary 4 0 0 [] in
  (∀ p n, inbox_tree !! p = Some n → st_fs r.1 !! p = Some n) ∧
  total_files s = length (scanned_files inbox_tree ["inbox"]) ∧
  organized s = 0 ∧ uncategorized s = 0 ∧
  Forall (λ ev, is_failure ev = false) r.2.
Proof.
  intros r s.
  apply (destination_around_source_moves_nothing os_permissive never_stop
           inplace_worker inbox_state r.1 r.2 s).
  - by exists [].
  - apply surjective_pairing.
  - vm_compute. repeat constructor.
Defined.

(** ** Stopping the processing loop *)

(** X19. A processing loop that is stopped has done exactly what a loop
    that is never stopped does on the files before the one at which the
    flag was read as set: the same tree, the same counters and the same
    signals.  Files moved before the stop stay moved, and no later file is
    touched. *)
Theorem stopped_loop_is_a_prefix (os : OS) (should_stop : nat → bool)
    (w : Worker) (base total : nat) (files : list FileInfo) (i : nat)
    (st : state) (org : nat) (unc : list FileInfo) (st' : state)
    (evs : list event) :
  process_loop os should_stop w base total files i st org unc
    = (st', evs, Stopped) →
  ∃ k, k < length files ∧
       should_stop (base + (i + k)) = true ∧
       (∀ m, m < k → should_stop (base + (i + m)) = false) ∧
       ∃ org' unc',
         process_loop os (λ _, false) w base total (take k files) i st
           org unc
         = (st', evs, Completed org' unc').
Proof.
  revert i st org unc st' evs.
  induction files as [|f rest IH]; intros i st org unc st' evs; simpl;
    [done|].
  destruct (should_stop (base + i)) eqn:Es.
  { intros [= <- <-]. exists 0. split; [lia|]. rewrite Nat.add_0_r.
    split; [done|]. split; [lia|]. by eexists _, _. }
  destruct (process_file os w f st org unc) as [[[st1 evs1] org1] unc1]
    eqn:Ef.
  destruct (process_loop os should_stop w base total rest (S i) st1 org1
              unc1) as [[st2 evs2] r] eqn:El.
  intros [= <- <- ->].
  destruct (IH _ _ _ _ _ _ El) as (k & Hk & Hs & Hbefore & org' & unc' & Hp).
  exists (S k). split; [lia|]. split; [by rewrite Nat.add_succ_r|]. split.
  - intros [|m] Hm; [by rewrite Nat.add_0_r|].
    rewrite Nat.add_succ_r. apply Hbefore. lia.
  - exists org', unc'. simpl. by rewrite Ef, Hp.
Qed.

Lemma stopped_loop_is_a_prefix_witness :
  let files := scanned_files inbox_tree ["inbox"] in
  let r := process_loop os_permissive stop_from_5 inbox_worker 5 4 files 0
             inbox_state 0 [] in
  ∃ k, k < length files ∧
       stop_from_5 (5 + (0 + k)) = true ∧
       (∀ m, m < k → stop_from_5 (5 + (0 + m)) = false) ∧
       ∃ org' unc',
         process_loop os_permissive (λ _, false) inbox_worker 5 4
           (take k files) 0 inbox_state 0 []
         = (r.1.1, r.1.2, Completed org' unc').
Proof.
  intros files r.
  apply (stopped_loop_is_a_prefix os_permissive stop_from_5 inbox_worker
           5 4 files 0 inbox_state 0 [] r.1.1 r.1.2).
  reflexivity.
Defined.

(** ** The log and the summary *)

Lemma process_loop_lines (os : OS) (should_stop : nat → bool) (w : Worker)
    base total files i st org unc st' evs r :
  process_loop os should_stop w base total files i st org unc
    = (st', evs, r) →
  List.filter is_uncategorized_line evs = [] ∧
  ∀ org' unc', r = Completed org' unc' →
               org' = org + length (List.filter is_moved evs).
Proof.
  revert files i st org unc st' evs r.
  apply process_loop_ind'.
  - intros i st org unc. split; [done|]. intros ?? [= <- <-]. simpl. lia.
  - done.
  - intros f rest i st org unc st1 evs1 org1 unc1 st2 evs2 r _ Hout _
      [Hu Hc].
    assert (List.filter is_uncategorized_line evs1 = [] ∧
            org1 = org + length (List.filter is_moved evs1)) as [Hu1 ->].
    { destruct Hout as [| | | j c ? ? _ _ _ Hmv | j c ? ? _ _ _ Hmv];
        simpl; try (split; [done|lia]).
      - apply move_file_inv in Hmv
          as (? & ? & _ & [(? & _)|(_ & _ & _ & -> & _)]); [done|].
        by split.
      - apply move_file_inv in Hmv
          as (? & ? & _ & [(_ & _ & _ & ? & ->)|(? & _)]); [|done].
        simpl. split; [done|lia]. }
    simpl. rewrite !List.filter_app, Hu1, Hu. split; [done|].
    intros org' unc' Hr. rewrite (Hc _ _ Hr), length_app. lia.
Qed.

Lemma move_uncategorized_lines (os : OS) folder files fs fs' evs :
  move_uncategorized os folder files fs = (fs', evs) →
  List.filter is_moved evs = [] ∧
  length (List.filter is_uncategorized_line evs) = length files.
Proof.
  revert fs fs' evs. induction files as [|f files IH]; intros fs fs' evs;
    simpl.
  - by intros [= <- <-].
  - destruct (move_uncategorized_file os folder f fs) as [fs1 evs1] eqn:E1.
    destruct (move_uncategorized os folder files fs1) as [fs2 evs2] eqn:E2.
    intros [= <- <-]. destruct (IH _ _ _ E2) as [Hm Hu].
    rewrite !List.filter_app, length_app, Hm, Hu.
    by apply move_uncategorized_file_inv in E1
      as [(_ & ? & ->)|(-> & _)].
Qed.

Lemma finish_uncategorized_lines (os : OS) (w : Worker) unc st st' evs :
  finish_uncategorized os w unc st = (st', evs, None) →
  List.filter is_moved evs = [] ∧
  length (List.filter is_uncategorized_line evs)
  = if dry_run w then 0 else length unc.
Proof.
  unfold finish_uncategorized, handle_uncategorized_files.
  destruct (dry_run w); [by intros [= <- <-]|].
  destruct unc as [|f unc]; [by intros [= <- <-]|].
  destruct (mkdir os (st_fs st) _) as [fs1 [e|]]; [done|].
  destruct (move_uncategorized _ _ _ _) as [fs2 evs2] eqn:E.
  intros [= <- <-]. by eapply move_uncategorized_lines.
Qed.

(** X20. The log of a run that ends with a summary agrees with the
    summary: the organized count is the number of log lines that report a
    move into a category folder, done or simulated, and in a real run each
    uncategorized file has exactly one log line, for its move or for its
    failure.  A dry run counts the uncategorized files but logs nothing
    about them. *)
Theorem log_agrees_with_summary (os : OS) (should_stop : nat → bool)
    (w : Worker) (st st' : state) (evs : list event) (s : Summary) :
  run os should_stop w st = (st', evs) →
  finished s ∈ evs →
  organized s = length (List.filter is_moved evs) ∧
  length (List.filter is_uncategorized_line evs)
  = if dry_run w then 0 else uncategorized s.
Proof.
  intros Hrun Hfin.
  destruct (run_finished_inv _ _ _ _ _ _ _ Hrun Hfin) as (_ & _ & Hcases).
  destruct Hcases as [(_ & -> & _ & ->)
                     |(_ & st1 & st2 & evs2 & org & unc & evs3
                         & _ & Hl & Hu & -> & ->)].
  { unfold start_events. simpl. by destruct (dry_run w). }
  apply process_loop_lines in Hl as [Hu2 Hc].
  apply finish_uncategorized_lines in Hu as [Hm3 Hu3].
  rewrite (Hc _ _ eq_refl).
  unfold start_events, completion_events.
  rewrite !List.filter_app, !length_app, Hm3, Hu2, Hu3. simpl.
  split; [lia|]. destruct (dry_run w); lia.
Qed.

Lemma log_agrees_with_summary_witness :
  let r := run os_locked never_stop inbox_worker inbox_state in
  let s := mkSummary 4 2 1 [("Documents", 1); ("Images", 1)] in
  organized s = length (List.filter is_moved r.2) ∧
  length (List.filter is_uncategorized_line r.2)
  = if dry_run inbox_worker then 0 else uncategorized s.
Proof.
  intros r s.
  apply (log_agrees_with_summary os_locked never_stop inbox_worker
           inbox_state r.1 r.2 s (surjective_pairing r)).
  vm_compute. repeat constructor.
Defined.
